(** * Shop: the client-side catalog of the product browser

    A shallow embedding of the catalog logic of [src/index.js] and of the two
    sibling versions of the same page script: promotion evaluation, the
    category index, the search/category filter, the recent section, the media
    gallery and the product modal.

    Conventions of the model.
    - A JSON field that may be [null] is an [option]; JavaScript truthiness is
      written out at each test ([0], the empty string and [None] are falsy).
    - Strings are sequences of code units below 256 (Latin-1), on which
      [toLowerCase] and [trim] are those of JavaScript.
    - A timestamp field carries the time value (milliseconds since the epoch)
      that [new Date(field)] yields; the reading of [new Date()] is the
      parameter [now].
    - Numbers are exact: integers in [Z], prices in [Q].
    - The document is a record of the parts the handlers read and write. *)

From Stdlib Require Import ZArith QArith Ascii String List Bool Lia Permutation Sorted.
From stdpp Require Import base list strings gmap sorting pretty.

Close Scope Q_scope.
Local Open Scope string_scope.
Local Open Scope list_scope.
Local Open Scope Z_scope.

(** ** JavaScript strings *)

Module JsString.

(** Upper case letters: A to Z, and the accented capitals 192 to 222 without
    the multiplication sign 215. *)
Definition is_upper (c : ascii) : bool :=
  let n := nat_of_ascii c in
  ((65 <=? n)%nat && (n <=? 90)%nat)
  || ((192 <=? n)%nat && (n <=? 222)%nat && negb (n =? 215)%nat).

Definition lower_char (c : ascii) : ascii :=
  if is_upper c then ascii_of_nat (nat_of_ascii c + 32) else c.

(** White space and line terminators removed by [trim]: tab to carriage
    return, space, no-break space. *)
Definition is_white (c : ascii) : bool :=
  let n := nat_of_ascii c in
  ((9 <=? n)%nat && (n <=? 13)%nat) || (n =? 32)%nat || (n =? 160)%nat.

Fixpoint toLowerCase (s : string) : string :=
  match s with
  | EmptyString => EmptyString
  | String c s' => String (lower_char c) (toLowerCase s')
  end.

Fixpoint trimStart (s : string) : string :=
  match s with
  | EmptyString => EmptyString
  | String c s' => if is_white c then trimStart s' else s
  end.

Fixpoint trimEnd (s : string) : string :=
  match s with
  | EmptyString => EmptyString
  | String c s' =>
      match trimEnd s' with
      | EmptyString => if is_white c then EmptyString else String c EmptyString
      | t => String c t
      end
  end.

Definition trim (s : string) : string := trimEnd (trimStart s).

Fixpoint startsWith (s t : string) : bool :=
  match t, s with
  | EmptyString, _ => true
  | String _ _, EmptyString => false
  | String b t', String a s' => Ascii.eqb a b && startsWith s' t'
  end.

(** [s.includes(t)]: [t] occurs in [s] as a contiguous run. *)
Fixpoint includes (s t : string) : bool :=
  startsWith s t ||
  match s with
  | EmptyString => false
  | String _ s' => includes s' t
  end.

(** Truthiness of a string value. *)
Definition truthy (s : string) : bool :=
  match s with EmptyString => false | _ => true end.

End JsString.

(** [x || ''] for a string field. *)
Definition or_empty (o : option string) : string :=
  match o with Some s => s | None => "" end.

(** ** [Array.prototype.sort] *)

(** [sort] with a comparator is stable (ECMAScript 2019), so for a consistent
    comparator its result is fixed by the language; it is written here as an
    insertion sort that keeps an element before the later ones it ties with. *)
Fixpoint sort_insert {A} (compareFn : A → A → Z) (x : A) (l : list A) : list A :=
  match l with
  | [] => [x]
  | y :: l' =>
      if compareFn x y <=? 0 then x :: y :: l' else y :: sort_insert compareFn x l'
  end.

Definition Array_sort {A} (compareFn : A → A → Z) (l : list A) : list A :=
  foldr (sort_insert compareFn) [] l.

(** ** Product records (rows of the [products] table) *)

Record product := {
  id : string;
  title : option string;
  description : option string;
  price : option Q;
  image_urls : option (list string);
  image_url : option string;
  categories : option (list string);
  is_featured : option bool;
  admin_notes : option string;
  discount_percent : option Z;
  promotion_start : option Z;
  promotion_end : option Z;
  created_at : option Z;
  click_count : option Z
}.

(** [new Date(v).getTime()] for a timestamp field; [new Date(null)] is the
    epoch. *)
Definition dateValue (o : option Z) : Z :=
  match o with Some t => t | None => 0 end.

Definition day : Z := 86400000.

(** ** Promotion evaluator *)

(** [hasActivePromotion(product)], with the clock reading [now]. *)
Definition hasActivePromotion (now : Z) (product : product) : bool :=
  match discount_percent product with
  | None => false
  | Some d =>
      if (d =? 0) || (d <=? 0) then false
      else
        match promotion_end product with
        | None => false
        | Some e =>
            let start :=
              match promotion_start product with
              | Some t => t
              | None => 0
              end in
            (start <=? now) && (now <=? e)
        end
  end.

(** Numeric value of an integer field in arithmetic ([null] counts as 0). *)
Definition toNumber (o : option Z) : Q :=
  match o with Some n => inject_Z n | None => 0%Q end.

(** [getDiscountedPrice(product)]; [None] is [null]. *)
Definition getDiscountedPrice (now : Z) (product : product) : option Q :=
  match price product with
  | None => None
  | Some pr =>
      if Qeq_bool pr 0 || negb (hasActivePromotion now product) then None
      else Some (pr * (1 - toNumber (discount_percent product) / 100))%Q
  end.

(** ** Category index *)

(** Values held by the counting object: a number, or a string produced when
    [+ 1] concatenates (its text plays no role). *)
Inductive jsval :=
| Num (n : Z)
| Str.

(** What reading [categoryCounts[cat]] finds: nothing, an own property, or a
    member inherited from [Object.prototype]. *)
Inductive property :=
| Undefined
| Own (v : jsval)
| Inherited.

(** The property names of [Object.prototype], which the literal [{}] inherits. *)
Definition object_prototype_names : list string :=
  [ "constructor"; "__defineGetter__"; "__defineSetter__"; "hasOwnProperty";
    "__lookupGetter__"; "__lookupSetter__"; "isPrototypeOf";
    "propertyIsEnumerable"; "toString"; "valueOf"; "__proto__";
    "toLocaleString" ].

Definition inherited_name (k : string) : bool :=
  existsb (String.eqb k) object_prototype_names.

(** Own properties of a plain object, in creation order. *)
Definition object := list (string * jsval).

Fixpoint own_property (o : object) (k : string) : option jsval :=
  match o with
  | [] => None
  | (k', v) :: o' => if String.eqb k' k then Some v else own_property o' k
  end.

Definition object_get (o : object) (k : string) : property :=
  match own_property o k with
  | Some v => Own v
  | None => if inherited_name k then Inherited else Undefined
  end.

Fixpoint object_put (o : object) (k : string) (v : jsval) : object :=
  match o with
  | [] => [(k, v)]
  | (k', v') :: o' =>
      if String.eqb k' k then (k', v) :: o' else (k', v') :: object_put o' k v
  end.

(** [o[k] = v]; the inherited [__proto__] setter ignores a primitive. *)
Definition object_set (o : object) (k : string) (v : jsval) : object :=
  if String.eqb k "__proto__" then o else object_put o k v.

(** [(x || 0) + 1]: a number is incremented (0 is falsy and yields 1 as
    well); a function, an object or a string is concatenated with ["1"]. *)
Definition or_zero_plus_one (x : property) : jsval :=
  match x with
  | Undefined => Num 1
  | Own (Num n) => Num (n + 1)
  | Own Str => Str
  | Inherited => Str
  end.

Definition digit_value (c : ascii) : option N :=
  let n := N_of_ascii c in
  if (48 <=? n)%N && (n <=? 57)%N then Some (n - 48)%N else None.

Fixpoint parse_digits (acc : N) (s : string) : option N :=
  match s with
  | EmptyString => Some acc
  | String c s' =>
      match digit_value c with
      | Some d => parse_digits (10 * acc + d)%N s'
      | None => None
      end
  end.

(** An array index is a canonical numeric string (decimal digits without a
    leading zero) whose value is at most 2^32 - 2. *)
Definition array_index (k : string) : option N :=
  match k with
  | EmptyString => None
  | String "0" (String _ _) => None
  | _ =>
      match parse_digits 0 k with
      | Some n => if (n <=? 4294967294)%N then Some n else None
      | None => None
      end
  end.

Definition is_array_index (k : string) : bool :=
  match array_index k with Some _ => true | None => false end.

Definition index_value (k : string) : Z :=
  match array_index k with Some n => Z.of_N n | None => 0 end.

(** [Object.entries(o)]: own properties whose key is an array index first, in
    ascending numeric order, then the other keys in creation order. *)
Definition Object_entries (o : object) : list (string * jsval) :=
  Array_sort (λ a b, index_value a.1 - index_value b.1)
             (List.filter (λ e, is_array_index e.1) o)
  ++ List.filter (λ e, negb (is_array_index e.1)) o.

Record category_entry := { name : string; count : Z }.

(** [categoryCounts[cat] = (categoryCounts[cat] || 0) + 1] *)
Definition count_category (categoryCounts : object) (cat : string) : object :=
  object_set categoryCounts cat (or_zero_plus_one (object_get categoryCounts cat)).

Definition count_product (categoryCounts : object) (product : product) : object :=
  match categories product with
  | Some cats => foldl count_category categoryCounts cats
  | None => categoryCounts
  end.

Definition categoryCounts (allProducts : list product) : object :=
  foldl count_product [] allProducts.

Definition numeric_entry (e : string * jsval) : option category_entry :=
  match e.2 with
  | Num n => Some {| name := e.1; count := n |}
  | Str => None
  end.

(** [loadCategories()]: the value stored in [allCategoriesWithCounts].
    [None] when some count is not a number: the comparator then yields [NaN]
    and the order of the sort is left to the implementation. *)
Definition loadCategories (allProducts : list product) : option (list category_entry) :=
  match mapM numeric_entry (Object_entries (categoryCounts allProducts)) with
  | Some entries => Some (Array_sort (λ a b, count b - count a) entries)
  | None => None
  end.

(** ** Filter engine *)

(** [filterProducts()]: the list handed to [renderProducts], from the product
    list, the selected categories and the text of the search box. *)
Definition filterProducts (allProducts : list product)
    (selectedCategories : gset string) (searchInput : string) : list product :=
  let searchTerm := JsString.trim (JsString.toLowerCase searchInput) in
  let filtered := allProducts in
  let filtered :=
    if bool_decide (0 < size selectedCategories)%nat then
      List.filter (λ product,
        match categories product with
        | None => false
        | Some cats =>
            forallb (λ cat, existsb (String.eqb cat) cats)
                    (elements selectedCategories)
        end) filtered
    else filtered in
  let filtered :=
    if JsString.truthy searchTerm then
      List.filter (λ product,
        let title := JsString.toLowerCase (or_empty (title product)) in
        let description := JsString.toLowerCase (or_empty (description product)) in
        JsString.includes title searchTerm || JsString.includes description searchTerm)
        filtered
    else filtered in
  filtered.

(** The two tests of [filterProducts] on one product, taken together. *)
Definition passes (C : gset string) (s : string) (p : product) : bool :=
  (if bool_decide (0 < size C)%nat then
     match categories p with
     | None => false
     | Some cats => forallb (λ cat, existsb (String.eqb cat) cats) (elements C)
     end
   else true)
  &&
  (let searchTerm := JsString.trim (JsString.toLowerCase s) in
   if JsString.truthy searchTerm then
     JsString.includes (JsString.toLowerCase (or_empty (title p))) searchTerm
     || JsString.includes (JsString.toLowerCase (or_empty (description p))) searchTerm
   else true).

(** ** Sections *)

(** What a section shows: hidden, a message, or product cards. *)
Inductive section_view :=
| Hidden
| NoData (message : string)
| Cards (products : list product).

(** [renderRecentProducts()] of [index.js]. [setDate(getDate() - 7)] moves
    the local calendar date back by seven days; without a clock change in
    that week this is seven times 86400000 ms. *)
Definition renderRecentProducts (now : Z) (allProducts : list product) : section_view :=
  let oneWeekAgo := now - 7 * day in
  let recentWithinWeek :=
    take 8
      (Array_sort (λ a b, dateValue (created_at b) - dateValue (created_at a))
         (List.filter (λ p,
            match created_at p with
            | Some t => oneWeekAgo <=? t
            | None => false
            end) allProducts)) in
  if (length recentWithinWeek =? 0)%nat then Hidden else Cards recentWithinWeek.

(** ** Media gallery *)

Definition placeholder : string :=
  "https://via.placeholder.com/400x400?text=No+Image".

(** [getProductMedia(product)]; [renderProductCard] and [openProductModal] of
    [index.js] compute their [images] by the same expression. *)
Definition getProductMedia (product : product) : list string :=
  let fallback :=
    match image_url product with
    | Some u => if JsString.truthy u then [u] else []
    | None => []
    end in
  match image_urls product with
  | Some urls => if (0 <? length urls)%nat then urls else fallback
  | None => fallback
  end.

(** [images.length > 0 ? images[0] : placeholder] *)
Definition mainImage (images : list string) : string :=
  match images with
  | u :: _ => u
  | [] => placeholder
  end.

(** [media[0] || placeholder], in the version with [getProductMedia]. *)
Definition mainMedia (media : list string) : string :=
  match media with
  | u :: _ => if JsString.truthy u then u else placeholder
  | [] => placeholder
  end.

Definition isVideo (src : string) : bool :=
  JsString.includes src "/video/" || JsString.includes src ".mp4"
  || JsString.includes src ".webm".

(** ** Product modal *)

(** A gallery thumbnail: the arguments bound in its [onclick] and whether it
    carries the class [active]. The markup pastes [escapeHtml(img)] between
    the quotation marks of [src] and between the apostrophes of the argument
    of [changeModalMedia] in [onclick]; the two fields below are what the
    browser reads back from that text for a URL that holds no quotation
    mark, apostrophe, backslash, line break or character 0, the characters
    that [escapeHtml] leaves and that would end the attribute or the string.
    Statements about clicks are made for such URLs only. *)
Record thumb := {
  thumb_src : string;
  thumb_isVideo : bool;
  thumb_active : bool
}.

(** The part of the modal markup that the handlers read and write: the
    product shown, the element [#modalMainMedia], and the thumbnails. *)
Record modal_content := {
  modal_product : string;
  main_src : string;
  main_isVideo : bool;
  gallery : list thumb
}.

Record page := {
  allProducts : list product;
  selectedCategories : gset string;
  searchInput : string;
  modal_active : bool;
  modalBody : option modal_content;
  body_overflow_hidden : bool
}.

Definition find_product (productId : string) (products : list product) : option product :=
  List.find (λ p, String.eqb (id p) productId) products.

(** Thumbnails are rendered only for a gallery of more than one item; the
    first one is active. Each carries its URL twice in the markup, as [src]
    and as the argument of its [onclick] (see [thumb]). *)
Definition galleryHtml (images : list string) : list thumb :=
  if (1 <? length images)%nat then
    imap (λ idx img,
            {| thumb_src := img; thumb_isVideo := isVideo img;
               thumb_active := (idx =? 0)%nat |}) images
  else [].

(** [openProductModal(productId)] of [index.js]. [main_src] is the URL the
    script computes for the main media and pastes, through [escapeHtml],
    into [src]; the element shows that very URL unless it holds a quotation
    mark, which ends the attribute early. *)
Definition openProductModal (productId : string) (s : page) : page :=
  match find_product productId (allProducts s) with
  | None => s
  | Some product =>
      let images := getProductMedia product in
      {| allProducts := allProducts s;
         selectedCategories := selectedCategories s;
         searchInput := searchInput s;
         modal_active := true;
         modalBody :=
           Some {| modal_product := id product;
                   main_src := mainImage images;
                   main_isVideo := isVideo (mainImage images);
                   gallery := galleryHtml images |};
         body_overflow_hidden := true |}
  end.

Definition deactivate (t : thumb) : thumb :=
  {| thumb_src := thumb_src t; thumb_isVideo := thumb_isVideo t;
     thumb_active := false |}.

Definition activate (t : thumb) : thumb :=
  {| thumb_src := thumb_src t; thumb_isVideo := thumb_isVideo t;
     thumb_active := true |}.

(** [changeModalMedia(src, thumb, isVideo)]; [thumb] is the position of the
    clicked element among the thumbnails (a position outside the gallery
    stands for an element that is not one of them). [None] is the
    [TypeError] raised when no [#modalMainMedia] exists to be replaced. *)
Definition changeModalMedia (src : string) (thumb : nat) (isVideo : bool)
    (s : page) : option page :=
  match modalBody s with
  | None => None
  | Some body =>
      Some {| allProducts := allProducts s;
              selectedCategories := selectedCategories s;
              searchInput := searchInput s;
              modal_active := modal_active s;
              modalBody :=
                Some {| modal_product := modal_product body;
                        main_src := src;
                        main_isVideo := isVideo;
                        gallery := alter activate thumb (deactivate <$> gallery body) |};
              body_overflow_hidden := body_overflow_hidden s |}
  end.

(** A click on the thumbnail at position [index]: the call that the text of
    its [onclick] makes when the URL is one of those described at [thumb].
    A position without a thumbnail has nothing to click: such a click is no
    event of the page, and the page is returned as it is. *)
Definition clickThumb (index : nat) (s : page) : option page :=
  match modalBody s with
  | None => Some s
  | Some body =>
      match gallery body !! index with
      | Some t => changeModalMedia (thumb_src t) index (thumb_isVideo t) s
      | None => Some s
      end
  end.

(** [closeModal(event)]; [event] is [Some b] for a click event, [b] telling
    whether its target is the modal backdrop itself. *)
Definition closeModal (event : option bool) (s : page) : page :=
  match event with
  | Some false => s
  | _ =>
      {| allProducts := allProducts s;
         selectedCategories := selectedCategories s;
         searchInput := searchInput s;
         modal_active := false;
         modalBody := modalBody s;
         body_overflow_hidden := false |}
  end.

(** The selection state of the detail view, read off the page. *)
Inductive selection :=
| Closed
| Open (productId : string) (mediaIndex : nat).

Fixpoint active_index (g : list thumb) : nat :=
  match g with
  | [] => 0
  | t :: g' => if thumb_active t then 0 else S (active_index g')
  end.

Definition mediaIndex_of (body : modal_content) : nat :=
  if existsb thumb_active (gallery body) then active_index (gallery body) else 0%nat.

Definition selection_of (s : page) : selection :=
  if modal_active s then
    match modalBody s with
    | Some body => Open (modal_product body) (mediaIndex_of body)
    | None => Closed
    end
  else Closed.

(** ** The version of the page script with click tracking *)

Module ClickTracking.

(** [renderRecentProducts()]: the last 8 by [created_at]. *)
Definition renderRecentProducts (allProducts : list product) : section_view :=
  let recent :=
    take 8
      (Array_sort (λ a b, dateValue (created_at b) - dateValue (created_at a))
         allProducts) in
  if (length recent =? 0)%nat then NoData "No products yet" else Cards recent.

(** How the [fetch] of the increment settles: a response with any status, or
    a rejection. *)
Inductive fetch_result :=
| Response (status : nat)
| Rejected (err : string).

Record page := {
  allProducts : list product;
  modal_active : bool;
  modalBody : option (modal_content * Z);
  body_overflow_hidden : bool;
  requests : list string;
  console : list string
}.

(** [product.click_count || 0] *)
Definition clicks (p : product) : Z :=
  match click_count p with Some n => n | None => 0 end.

Definition add_click (p : product) : product :=
  {| id := id p; title := title p; description := description p;
     price := price p; image_urls := image_urls p; image_url := image_url p;
     categories := categories p; is_featured := is_featured p;
     admin_notes := admin_notes p; discount_percent := discount_percent p;
     promotion_start := promotion_start p; promotion_end := promotion_end p;
     created_at := created_at p; click_count := Some (clicks p + 1) |}.

(** [allProducts.find(p => p.id === productId)] followed by the assignment to
    [click_count] of the object found: the first match is updated in place. *)
Fixpoint update_found (productId : string) (products : list product) : list product :=
  match products with
  | [] => []
  | p :: rest =>
      if String.eqb (id p) productId then add_click p :: rest
      else p :: update_found productId rest
  end.

(** [trackProductClick(productId)] up to its [await]: the request is sent. *)
Definition trackProductClick (productId : string) (s : page) : page :=
  {| allProducts := allProducts s; modal_active := modal_active s;
     modalBody := modalBody s; body_overflow_hidden := body_overflow_hidden s;
     requests := requests s ++ [productId]; console := console s |}.

(** [trackProductClick(productId)] after its [await], once the request of
    [productId] has settled with [r]. *)
Definition trackProductClick_settled (productId : string) (r : fetch_result)
    (s : page) : page :=
  match r with
  | Response _ =>
      {| allProducts := update_found productId (allProducts s);
         modal_active := modal_active s; modalBody := modalBody s;
         body_overflow_hidden := body_overflow_hidden s;
         requests := requests s; console := console s |}
  | Rejected err =>
      {| allProducts := allProducts s; modal_active := modal_active s;
         modalBody := modalBody s;
         body_overflow_hidden := body_overflow_hidden s;
         requests := requests s;
         console := console s ++ ["Click tracking failed (not critical): " +:+ err] |}
  end.

Definition isVideo (src : string) : bool :=
  JsString.includes src ".mp4" || JsString.includes src ".webm".

Definition galleryHtml (images : list string) : list thumb :=
  if (1 <? length images)%nat then
    imap (λ idx img,
            {| thumb_src := img; thumb_isVideo := isVideo img;
               thumb_active := (idx =? 0)%nat |}) images
  else [].

(** [openProductModal(productId)]: the modal also shows the view count read
    at the time of opening. *)
Definition openProductModal (productId : string) (s : page) : page :=
  match find_product productId (allProducts s) with
  | None => s
  | Some product =>
      let s := trackProductClick productId s in
      let images := getProductMedia product in
      {| allProducts := allProducts s;
         modal_active := true;
         modalBody :=
           Some ({| modal_product := id product;
                    main_src := mainImage images;
                    main_isVideo := isVideo (mainImage images);
                    gallery := galleryHtml images |}, clicks product);
         body_overflow_hidden := true;
         requests := requests s;
         console := console s |}
  end.

End ClickTracking.

(** ** The properties as the specification words them *)

(** The category set of a product; a product without the field has none. *)
Definition category_set (p : product) : list string :=
  match categories p with Some cats => cats | None => [] end.

(** [t] occurs in [s] when upper and lower case are not distinguished. *)
Definition substring_ignoring_case (t s : string) : Prop :=
  ∃ a b, JsString.toLowerCase s = a +:+ JsString.toLowerCase t +:+ b.

(** A product passes the filter of categories [C] and search text [s]. *)
Definition visible_spec (C : gset string) (s : string) (p : product) : Prop :=
  (C = ∅ ∨ ∀ c, c ∈ C → c ∈ category_set p) ∧
  (JsString.trim s = "" ∨
   substring_ignoring_case (JsString.trim s) (or_empty (title p)) ∨
   substring_ignoring_case (JsString.trim s) (or_empty (description p))).

(** A product with nothing but an id, a title and category labels. *)
Definition plain_product (i : string) (cats : option (list string)) : product :=
  {| id := i; title := Some "Lamp"; description := None; price := None;
     image_urls := None; image_url := None; categories := cats;
     is_featured := None; admin_notes := None; discount_percent := None;
     promotion_start := None; promotion_end := None; created_at := None;
     click_count := None |}.

Definition with_promotion (p : product) (pr : option Q) (d s e : option Z) : product :=
  {| id := id p; title := title p; description := description p; price := pr;
     image_urls := image_urls p; image_url := image_url p;
     categories := categories p; is_featured := is_featured p;
     admin_notes := admin_notes p; discount_percent := d;
     promotion_start := s; promotion_end := e; created_at := created_at p;
     click_count := click_count p |}.

(** The product of the scenario: price 100, 20 percent off, from one day
    before to one day after day 1000. *)
Definition lamp_on_sale : product :=
  with_promotion (plain_product "p1" None) (Some 100%Q) (Some 20)
    (Some (999 * day)) (Some (1001 * day)).

(** The claim about the sale price at one product and clock reading: absent
    when the product is not on promotion or has no price, the discounted
    amount when it is on promotion and has a price, 0 included. *)
Definition salePrice_claim (now : Z) (p : product) : Prop :=
  (hasActivePromotion now p = false ∨ price p = None →
     getDiscountedPrice now p = None) ∧
  (∀ pr, hasActivePromotion now p = true → price p = Some pr →
     ∃ q, getDiscountedPrice now p = Some q ∧
          (q == pr * (1 - toNumber (discount_percent p) / 100))%Q).

Definition free_sample : product :=
  with_promotion (plain_product "p2" None) (Some 0%Q) (Some 20) None
    (Some (1001 * day)).

(** The claim about discounts out of range at one product and clock reading:
    a discount outside (0,100], or a missing end, is never on promotion. *)
Definition out_of_range_claim (now : Z) (p : product) : Prop :=
  (∃ d, discount_percent p = Some d ∧ (d <= 0 ∨ 100 < d)) ∨ promotion_end p = None →
  hasActivePromotion now p = false.

Definition overdiscounted : product :=
  with_promotion (plain_product "p3" None) (Some 100%Q) (Some 150) None
    (Some (1001 * day)).

Definition negative_discount : product :=
  with_promotion (plain_product "p4" None) (Some 100%Q) (Some (-5)) None
    (Some (1001 * day)).

Definition with_media (p : product) (urls : option (list string)) (url : option string) : product :=
  {| id := id p; title := title p; description := description p;
     price := price p; image_urls := urls; image_url := url;
     categories := categories p; is_featured := is_featured p;
     admin_notes := admin_notes p; discount_percent := discount_percent p;
     promotion_start := promotion_start p; promotion_end := promotion_end p;
     created_at := created_at p; click_count := click_count p |}.

(** A product with two media items, and a page that holds only it. *)
Definition two_media : product :=
  with_media (plain_product "p5" None) (Some ["a.jpg"; "b.mp4"]) None.

Definition shop_page (products : list product) : page :=
  {| allProducts := products; selectedCategories := ∅; searchInput := "";
     modal_active := false; modalBody := None; body_overflow_hidden := false |}.


Definition tracking_page (products : list product) : ClickTracking.page :=
  {| ClickTracking.allProducts := products;
     ClickTracking.modal_active := false;
     ClickTracking.modalBody := None;
     ClickTracking.body_overflow_hidden := false;
     ClickTracking.requests := [];
     ClickTracking.console := [] |}.

Definition with_created (p : product) (t : option Z) : product :=
  {| id := id p; title := title p; description := description p;
     price := price p; image_urls := image_urls p; image_url := image_url p;
     categories := categories p; is_featured := is_featured p;
     admin_notes := admin_notes p; discount_percent := discount_percent p;
     promotion_start := promotion_start p; promotion_end := promotion_end p;
     created_at := t; click_count := click_count p |}.

(** A product is recent at [now]: it has a creation time, not more than seven
    days before [now]. *)
Definition within_last_week (now : Z) (p : product) : Prop :=
  ∃ t, created_at p = Some t ∧ now - 7 * day <= t.

(** The order in which a sort by [key], largest first, leaves two elements. *)
Definition descending {A} (key : A → Z) (a b : A) : Prop := key b <= key a.

Definition newest_first (a b : product) : Prop :=
  dateValue (created_at b) <= dateValue (created_at a).

(** The claim about the Recent section, for a renderer of that section: it
    shows the recent products, newest first, cut to eight, and is hidden when
    there is none. *)
Definition recent_claim (render : list product → section_view) (now : Z)
    (P : list product) : Prop :=
  ∃ (keep : product → bool) (ranked : list product),
    (∀ p, keep p = true ↔ within_last_week now p) ∧
    Permutation ranked (List.filter keep P) ∧
    StronglySorted newest_first ranked ∧
    render P = match take 8 ranked with
               | [] => Hidden
               | cards => Cards cards
               end.

(** The products of the scenario at day 1000: one created two days ago, one
    ten days ago. *)
Definition two_days_old : product :=
  with_created (plain_product "1" None) (Some (998 * day)).

Definition ten_days_old : product :=
  with_created (plain_product "2" None) (Some (990 * day)).

(** All category labels of the collection, product by product. *)
Definition all_labels (P : list product) : list string :=
  concat (category_set <$> P).

(** The distinct labels of a list, in the order of first occurrence. *)
Fixpoint first_seen (l : list string) : list string :=
  match l with
  | [] => []
  | x :: l' => x :: List.filter (λ y, negb (String.eqb y x)) (first_seen l')
  end.

(** The number of products whose category set contains [l]. *)
Definition products_with (l : string) (P : list product) : Z :=
  Z.of_nat (length (List.filter (λ p, existsb (String.eqb l) (category_set p)) P)).

(** The number of (product, category) membership pairs. *)
Definition memberships (P : list product) : Z :=
  foldr (λ p n, Z.of_nat (length (category_set p)) + n) 0 P.

Definition total (entries : list category_entry) : Z :=
  foldr (λ e n, count e + n) 0 entries.

Definition names_with_count (c : Z) (entries : list category_entry) : list string :=
  name <$> List.filter (λ e, count e =? c) entries.

(** The claim about [categoryCounts()] at one collection: one entry per
    label, each with the number of products carrying it, sorted by count,
    largest first, ties in the order in which the labels were first seen. *)
Definition categoryCounts_claim (P : list product) : Prop :=
  ∃ entries,
    loadCategories P = Some entries ∧
    NoDup (name <$> entries) ∧
    (∀ l, l ∈ name <$> entries ↔ l ∈ all_labels P) ∧
    (∀ e, e ∈ entries → count e = products_with (name e) P) ∧
    total entries = memberships P ∧
    StronglySorted (descending count) entries ∧
    (∀ c, names_with_count c entries `sublist_of` first_seen (all_labels P)).

(** A collection in which the label ["b"] is seen before the label ["1"]. *)
Definition numbered_labels : list product :=
  [plain_product "p1" (Some ["b"; "1"])].

(** No label is the name of a member of [Object.prototype]. *)
Definition ordinary_labels (P : list product) : Prop :=
  ∀ l, l ∈ all_labels P → inherited_name l = false.

(** The category labels of each product are a set: none is listed twice. *)
Definition label_sets (P : list product) : Prop :=
  ∀ p, p ∈ P → NoDup (category_set p).

Definition ascending_index (a b : string) : Prop :=
  index_value a <= index_value b.

Definition shelf : list product :=
  [plain_product "p1" (Some ["b"; "1"]); plain_product "p2" (Some ["b"])].

Definition with_title (p : product) (t d : option string) : product :=
  {| id := id p; title := t; description := d;
     price := price p; image_urls := image_urls p; image_url := image_url p;
     categories := categories p; is_featured := is_featured p;
     admin_notes := admin_notes p; discount_percent := discount_percent p;
     promotion_start := promotion_start p; promotion_end := promotion_end p;
     created_at := created_at p; click_count := click_count p |}.

Definition catalogue : list product :=
  [ with_title (plain_product "1" (Some ["a"; "b"; "c"])) (Some "Desk Lamp") None;
    with_title (plain_product "2" (Some ["a"])) (Some "Chair") (Some "goes with the LAMP");
    with_title (plain_product "3" None) None None;
    with_title (plain_product "4" (Some ["b"; "a"])) (Some "Shelf") None ].

(** ** Auxiliary notions of the proofs about the category index *)

(** The number of occurrences of [k] in a list of labels. *)
Definition occurrences (k : string) (l : list string) : Z :=
  Z.of_nat (length (List.filter (String.eqb k) l)).

Definition mem (k : string) (l : list string) : bool :=
  existsb (String.eqb k) l.

(** The key order of an object to which the keys of a list are added one by
    one. *)
Definition add_key (acc : list string) (k : string) : list string :=
  if mem k acc then acc else acc ++ [k].

(** Every own property holds a number. *)
Definition numeric (o : object) : Prop :=
  Forall (λ e, ∃ n, e.2 = Num n) o.

(** The number held under [k], 0 when there is none. *)
Definition counted (o : object) (k : string) : Z :=
  match own_property o k with
  | Some (Num n) => n
  | _ => 0
  end.

Definition to_entry (e : string * jsval) : category_entry :=
  {| name := e.1; count := match e.2 with Num n => n | Str => 0 end |}.

Definition sum_over (f : string → Z) (l : list string) : Z :=
  foldr (λ k n, f k + n) 0 l.

(** ** Further parts of the page script *)

(** *** [escapeHtml] *)

(** The serialization of one character of a text node by [innerHTML]. *)
Definition escape_char (c : ascii) : string :=
  if Ascii.eqb c "&" then "&amp;"
  else if Ascii.eqb c "<" then "&lt;"
  else if Ascii.eqb c ">" then "&gt;"
  else if Ascii.eqb c (ascii_of_nat 160) then "&nbsp;"
  else String c "".

Fixpoint serialize_text (s : string) : string :=
  match s with
  | EmptyString => EmptyString
  | String c s' => escape_char c +:+ serialize_text s'
  end.

(** [escapeHtml(text)]: the text is assigned to [textContent] of a fresh
    element, whose [innerHTML] is returned. *)
Definition escapeHtml (text : option string) : string :=
  match text with
  | Some s => if JsString.truthy s then serialize_text s else ""
  | None => ""
  end.

(** *** Sections of [index.js] *)

(** [renderPromotionProducts()] *)
Definition renderPromotionProducts (now : Z) (allProducts : list product) : section_view :=
  let promos := List.filter (λ p, hasActivePromotion now p) allProducts in
  if (length promos =? 0)%nat then Hidden else Cards promos.

(** [renderPopularProducts()]: [p.is_featured === true]. *)
Definition renderPopularProducts (allProducts : list product) : section_view :=
  let popular :=
    List.filter (λ p, match is_featured p with Some true => true | _ => false end)
                allProducts in
  if (length popular =? 0)%nat then Hidden else Cards popular.

(** What [renderProducts] writes: the text of [productCount] and the grid. *)
Record grid_view := {
  productCount : string;
  productsGrid : section_view
}.

(** [renderProducts(products)] *)
Definition renderProducts (products : list product) : grid_view :=
  {| productCount :=
       pretty (length products) +:+ " product"
       +:+ (if negb (length products =? 1)%nat then "s" else "");
     productsGrid :=
       if (length products =? 0)%nat then NoData "No products found"
       else Cards products |}.

(** [handleCategoryChange(e)]: [category] is [e.target.value] and [checked]
    is [e.target.checked]; the second component is what the call of
    [filterProducts] renders. *)
Definition handleCategoryChange (category : string) (checked : bool) (s : page)
    : page * grid_view :=
  let selected :=
    if checked then {[ category ]} ∪ selectedCategories s
    else selectedCategories s ∖ {[ category ]} in
  ({| allProducts := allProducts s;
      selectedCategories := selected;
      searchInput := searchInput s;
      modal_active := modal_active s;
      modalBody := modalBody s;
      body_overflow_hidden := body_overflow_hidden s |},
   renderProducts (filterProducts (allProducts s) selected (searchInput s))).

(** *** Category list *)

(** A rendered checkbox: its [data-category-name], its value, whether it is
    checked, and the count shown. *)
Record category_checkbox := {
  data_category_name : string;
  checkbox_value : string;
  checkbox_checked : bool;
  checkbox_count : Z
}.

Inductive category_view :=
| CategoryMessage (message : string)
| CategoryBoxes (boxes : list category_checkbox).

(** [renderCategories(categories)] *)
Definition renderCategories (selectedCategories : gset string)
    (categories : list category_entry) : list category_checkbox :=
  (λ e, {| data_category_name := escapeHtml (Some (JsString.toLowerCase (name e)));
           checkbox_value := escapeHtml (Some (name e));
           checkbox_checked := bool_decide (name e ∈ selectedCategories);
           checkbox_count := count e |}) <$> categories.

(** The [input] listener installed by [setupCategorySearchListener], for the
    text [input] of the category search box. *)
Definition categorySearch (allCategoriesWithCounts : list category_entry)
    (selectedCategories : gset string) (input : string) : category_view :=
  let searchTerm := JsString.trim (JsString.toLowerCase input) in
  if negb (JsString.truthy searchTerm) then
    CategoryBoxes (renderCategories selectedCategories allCategoriesWithCounts)
  else
    let filtered :=
      List.filter (λ e, JsString.includes (JsString.toLowerCase (name e)) searchTerm)
                  allCategoriesWithCounts in
    if (length filtered =? 0)%nat then CategoryMessage "No matching categories"
    else CategoryBoxes (renderCategories selectedCategories filtered).

(** *** Product cards *)

(** The price markup: none, the plain price, the struck price with the sale
    price, and in the modal also the discount badge and the end date. *)
Inductive price_view :=
| NoPrice
| Price (modal : bool) (amount : Q)
| SalePrice (original discounted : Q)
| ModalSalePrice (original discounted : Q) (percent : option Z) (ends : option Z).

(** Truthiness of [product.price]. *)
Definition price_truthy (p : product) : option Q :=
  match price p with
  | Some pr => if Qeq_bool pr 0 then None else Some pr
  | None => None
  end.

(** [priceHtml] as computed in [renderProductCard]. *)
Definition card_priceHtml (now : Z) (product : product) : price_view :=
  let isOnSale := hasActivePromotion now product in
  let discountedPrice := getDiscountedPrice now product in
  match price_truthy product with
  | Some pr =>
      match isOnSale, discountedPrice with
      | true, Some sale => SalePrice pr sale
      | _, _ => Price false pr
      end
  | None => NoPrice
  end.

(** [priceHtml] as computed in [openProductModal]. *)
Definition modal_priceHtml (now : Z) (product : product) : price_view :=
  let isOnSale := hasActivePromotion now product in
  let discountedPrice := getDiscountedPrice now product in
  match price_truthy product with
  | Some pr =>
      match isOnSale, discountedPrice with
      | true, Some sale =>
          ModalSalePrice pr sale (discount_percent product) (promotion_end product)
      | _, _ => Price true pr
      end
  | None => NoPrice
  end.

Record card := {
  card_id : string;
  card_compact : bool;
  card_on_sale : bool;
  card_media : string;
  card_isVideo : bool;
  card_mediaCount : option nat;
  card_saleBadge : option Z;
  card_title : string;
  card_priceHtml_of : price_view
}.

(** [renderProductCard(product, compact)] *)
Definition renderProductCard (now : Z) (product : product) (compact : bool) : card :=
  let images := getProductMedia product in
  let isOnSale := hasActivePromotion now product in
  {| card_id := id product;
     card_compact := compact;
     card_on_sale := isOnSale;
     card_media := mainImage images;
     card_isVideo := isVideo (mainImage images);
     card_mediaCount := if (1 <? length images)%nat then Some (length images) else None;
     card_saleBadge := if isOnSale then discount_percent product else None;
     card_title := escapeHtml (title product);
     card_priceHtml_of := card_priceHtml now product |}.

(** *** Keyboard *)

(** The [keydown] listener of [setupKeyboardListener]. *)
Definition keydown (key : string) (s : page) : page :=
  if String.eqb key "Escape" && modal_active s then closeModal None s else s.

(** *** Loading the collection *)

(** How a request to the data store ends: a response that is [ok] with its
    rows, a response that is not, with the [message] of its body if any, or
    a rejected [fetch]. *)
Inductive fetch_outcome (A : Type) :=
| FetchOk (rows : A)
| FetchNotOk (message : option string)
| FetchRejected (message : string).
Arguments FetchOk {A} rows.
Arguments FetchNotOk {A} message.
Arguments FetchRejected {A} message.

(** [x || fallback] for a message. *)
Definition or_message (o : option string) (fallback : string) : string :=
  match o with
  | Some m => if JsString.truthy m then m else fallback
  | None => fallback
  end.

(** [Database.selectAll()]: the rows, or the message of the error thrown. *)
Definition selectAll (response : fetch_outcome (list product)) : list product + string :=
  match response with
  | FetchOk rows => inl rows
  | FetchNotOk message => inr (or_message message "Failed to fetch records")
  | FetchRejected message => inr message
  end.

Record screen := {
  promotionSection : section_view;
  recentSection : section_view;
  popularSection : section_view;
  grid : grid_view
}.

(** The content of a section is replaced by the failure message; whether
    the section is displayed is left as it was. *)
Definition failed_content (v : section_view) : section_view :=
  match v with
  | Hidden => Hidden
  | _ => NoData "Failed to load"
  end.

(** [loadProducts()] of [index.js], once the request has ended. *)
Definition loadProducts (now : Z) (response : fetch_outcome (list product))
    (s : page) (shown : screen) : page * screen :=
  match selectAll response with
  | inl rows =>
      ({| allProducts := rows;
          selectedCategories := selectedCategories s;
          searchInput := searchInput s;
          modal_active := modal_active s;
          modalBody := modalBody s;
          body_overflow_hidden := body_overflow_hidden s |},
       {| promotionSection := renderPromotionProducts now rows;
          recentSection := renderRecentProducts now rows;
          popularSection := renderPopularProducts rows;
          grid := renderProducts rows |})
  | inr message =>
      (s,
       {| promotionSection := promotionSection shown;
          recentSection := failed_content (recentSection shown);
          popularSection := failed_content (popularSection shown);
          grid := {| productCount := productCount (grid shown);
                     productsGrid := NoData ("Failed to load products: " +:+ message) |} |})
  end.

(** *** [Database.getUniqueCategories] *)

(** The default order of [sort()]: strings by their code units. *)
Definition compare_strings (a b : string) : Z :=
  match String.compare a b with
  | Lt => -1
  | Eq => 0
  | Gt => 1
  end.

(** [getUniqueCategories()] on the rows of the request [select=categories]:
    the labels of the rows that have an array, without repetitions (a [Set]
    keeps the first occurrence), sorted. *)
Definition getUniqueCategories (response : fetch_outcome (list product))
    : list string + string :=
  match response with
  | FetchOk products =>
      let allCategories := concat (category_set <$> products) in
      inl (Array_sort compare_strings (first_seen allCategories))
  | FetchNotOk message => inr (or_message message "Failed to fetch categories")
  | FetchRejected message => inr message
  end.

(** *** More of the version with click tracking *)

Module TrackingPage.

(** [renderPopularProducts()]: the top 8 by [click_count]. *)
Definition renderPopularProducts (allProducts : list product) : section_view :=
  let popular :=
    take 8
      (Array_sort (λ a b, ClickTracking.clicks b - ClickTracking.clicks a)
         (List.filter (λ p, 0 <? ClickTracking.clicks p) allProducts)) in
  if (length popular =? 0)%nat then NoData "No popular products yet"
  else Cards popular.

Inductive category_list :=
| Message (text : string)
| Checkboxes (values : list string).

(** [loadCategories()], once the request has ended. *)
Definition loadCategories (response : fetch_outcome (list product)) : category_list :=
  match getUniqueCategories response with
  | inl categories =>
      if (length categories =? 0)%nat then Message "No categories available"
      else Checkboxes ((λ category, escapeHtml (Some category)) <$> categories)
  | inr message => Message ("Failed to load categories: " +:+ message)
  end.

End TrackingPage.

(** *** The version of the page script with video helpers *)

Module VideoPage.

(** [isVideoUrl(url)] *)
Definition isVideoUrl (url : option string) : bool :=
  match url with
  | Some u =>
      if JsString.truthy u then
        let lower := JsString.toLowerCase u in
        JsString.includes lower ".mp4" || JsString.includes lower ".webm"
        || JsString.includes lower ".mov"
      else false
  | None => false
  end.

(** [formatPriceHtml(product, isModal)] *)
Definition formatPriceHtml (now : Z) (product : product) (isModal : bool) : price_view :=
  match price_truthy product with
  | None => NoPrice
  | Some price =>
      let isOnSale := hasActivePromotion now product in
      let discountedPrice := getDiscountedPrice now product in
      match isOnSale, discountedPrice with
      | true, Some salePrice =>
          if isModal then
            ModalSalePrice price salePrice (discount_percent product)
                           (promotion_end product)
          else SalePrice price salePrice
      | _, _ => Price isModal price
      end
  end.

Definition galleryHtml (media : list string) : list thumb :=
  if (1 <? length media)%nat then
    imap (λ idx src,
            {| thumb_src := src; thumb_isVideo := isVideoUrl (Some src);
               thumb_active := (idx =? 0)%nat |}) media
  else [].

(** [openProductModal(productId)] *)
Definition openProductModal (productId : string) (s : page) : page :=
  match find_product productId (allProducts s) with
  | None => s
  | Some product =>
      let media := getProductMedia product in
      {| allProducts := allProducts s;
         selectedCategories := selectedCategories s;
         searchInput := searchInput s;
         modal_active := true;
         modalBody :=
           Some {| modal_product := id product;
                   main_src := mainMedia media;
                   main_isVideo := isVideoUrl (Some (mainMedia media));
                   gallery := galleryHtml media |};
         body_overflow_hidden := true |}
  end.

End VideoPage.

(** ** Auxiliary notions of the proofs about the page *)

(** The thumbnails of a gallery with the one at position [active] active. *)
Definition gallery_at (active : nat) (images : list string) : list thumb :=
  if (1 <? length images)%nat then
    imap (λ idx img,
            {| thumb_src := img; thumb_isVideo := isVideo img;
               thumb_active := (idx =? active)%nat |}) images
  else [].

(** The page [base] with the modal open on [product] and the media item at
    position [i] selected. *)
Definition shown_page (base : page) (product : product) (i : nat) : page :=
  let media := getProductMedia product in
  {| allProducts := allProducts base;
     selectedCategories := selectedCategories base;
     searchInput := searchInput base;
     modal_active := true;
     modalBody :=
       Some {| modal_product := id product;
               main_src := mainImage (drop i media);
               main_isVideo := isVideo (mainImage (drop i media));
               gallery := gallery_at i media |};
     body_overflow_hidden := true |}.

(** The characters of a URL that change what the markup of the modal says
    once [escapeHtml(url)] is pasted into [src="..."] and into the argument
    of [onclick="changeModalMedia('...', this, ...)"]: the quotation mark
    ends the attribute, the apostrophe ends the string of the script, the
    backslash starts an escape in it, a line break may not occur in it, and
    the parser replaces the character 0. [escapeHtml] copies all of them. *)
Definition breaks_markup (c : ascii) : bool :=
  let n := nat_of_ascii c in
  (n =? 0)%nat || (n =? 10)%nat || (n =? 13)%nat || (n =? 34)%nat
  || (n =? 39)%nat || (n =? 92)%nat.

(** A URL that the markup of the modal gives back as it is, as the source of
    an element and as the argument of a thumbnail's handler. *)
Definition markup_safe (url : string) : bool :=
  forallb (λ c, negb (breaks_markup c)) (list_ascii_of_string url).

Definition safe_media (p : product) : bool :=
  forallb markup_safe (getProductMedia p).

(** A run of clicks on thumbnail positions. *)
Fixpoint clickThumbs (positions : list nat) (s : page) : option page :=
  match positions with
  | [] => Some s
  | i :: rest =>
      match clickThumb i s with
      | Some s' => clickThumbs rest s'
      | None => None
      end
  end.

(** The last position of a run that lies inside a gallery of [n] items,
    [current] when there is none. *)
Fixpoint last_inside (n : nat) (current : nat) (positions : list nat) : nat :=
  match positions with
  | [] => current
  | i :: rest => last_inside n (if (i <? n)%nat then i else current) rest
  end.

(** The events of the page handled by the script of [index.js]. *)
Inductive event :=
| OpenProduct (productId : string)
| CloseModal (click : option bool)
| ClickThumb (position : nat)
| Keydown (key : string)
| TypeSearch (text : string)
| CategoryChange (category : string) (checked : bool).

Definition handle (e : event) (s : page) : page :=
  match e with
  | OpenProduct productId => openProductModal productId s
  | CloseModal click => closeModal click s
  | ClickThumb position =>
      match clickThumb position s with
      | Some s' => s'
      | None => s
      end
  | Keydown key => keydown key s
  | TypeSearch text =>
      {| allProducts := allProducts s;
         selectedCategories := selectedCategories s;
         searchInput := text;
         modal_active := modal_active s;
         modalBody := modalBody s;
         body_overflow_hidden := body_overflow_hidden s |}
  | CategoryChange category checked => (handleCategoryChange category checked s).1
  end.

Definition run (events : list event) (s : page) : page :=
  foldl (λ s e, handle e s) s events.

(** The number of requests of a list that got a response. *)
Definition responses (results : list ClickTracking.fetch_result) : Z :=
  Z.of_nat (length (List.filter
    (λ r, match r with ClickTracking.Response _ => true | _ => false end) results)).

Definition settle_all (productId : string)
    (results : list ClickTracking.fetch_result) (s : ClickTracking.page)
    : ClickTracking.page :=
  foldl (λ s r, ClickTracking.trackProductClick_settled productId r s) s results.

(** A character that [innerHTML] writes as it is. *)
Definition plain_char (c : ascii) : Prop :=
  c ≠ "&"%char ∧ c ≠ "<"%char ∧ c ≠ ">"%char ∧ c ≠ ascii_of_nat 160.

(** The double quote, which delimits the attributes the escaped text is
    placed in. *)
Definition double_quote : ascii := ascii_of_nat 34.

(** What holds of the modal of a page over the collection [P] while it is
    open: the scroll lock is on, the product shown is one of [P], the
    thumbnails are of its media and the main item is one of them or the
    placeholder. *)
Definition modal_consistent (P : list product) (s : page) : Prop :=
  allProducts s = P ∧
  body_overflow_hidden s = modal_active s ∧
  (modal_active s = true →
   ∃ body product,
     modalBody s = Some body ∧
     product ∈ P ∧
     id product = modal_product body ∧
     Forall (λ t, thumb_src t ∈ getProductMedia product) (gallery body) ∧
     main_src body ∈ placeholder :: getProductMedia product).

Definition rejections (results : list ClickTracking.fetch_result) : nat :=
  length (List.filter
    (λ r, match r with ClickTracking.Rejected _ => true | _ => false end) results).

(** A media URL that is a video for its path only. *)
Definition path_only_video : string :=
  "https://res.cloudinary.com/shop/video/upload/v1/clip".

(** * Properties *)

(** ** Strings *)

Lemma startsWith_spec (s t : string) :
  JsString.startsWith s t = true ↔ ∃ b, s = t +:+ b.
Proof.
  revert s. induction t as [|c t IH]; intros s; simpl.
  - split; [intros _; now exists s | now destruct s].
  - destruct s as [|a s].
    + split; [discriminate | intros [b Hb]; discriminate].
    + simpl. rewrite andb_true_iff, IH. split.
      * intros [Hc [b ->]]. apply Ascii.eqb_eq in Hc as ->. now exists b.
      * intros [b [= -> ->]]. split; [apply Ascii.eqb_refl | now exists b].
Qed.

Lemma includes_spec (s t : string) :
  JsString.includes s t = true ↔ ∃ a b, s = a +:+ t +:+ b.
Proof.
  induction s as [|c s IH]; cbn [JsString.includes]; rewrite orb_true_iff.
  - rewrite startsWith_spec. split.
    + intros [[b Hb] | Hf]; [now exists "", b | discriminate].
    + intros (a & b & Hab). left. destruct a; [now exists b | discriminate].
  - rewrite startsWith_spec, IH. split.
    + intros [[b Hb] | (a & b & ->)]; [now exists "", b|].
      now exists (String c a), b.
    + intros (a & b & Hab). destruct a as [|c' a]; simpl in Hab.
      * left. now exists b.
      * right. injection Hab as -> ->. now exists a, b.
Qed.

Lemma is_white_lower (c : ascii) :
  JsString.is_white (JsString.lower_char c) = JsString.is_white c.
Proof. destruct c as [[] [] [] [] [] [] [] []]; reflexivity. Qed.

Lemma toLowerCase_trimStart (s : string) :
  JsString.toLowerCase (JsString.trimStart s)
  = JsString.trimStart (JsString.toLowerCase s).
Proof.
  induction s as [|c s IH]; simpl; [reflexivity|].
  rewrite is_white_lower. now destruct (JsString.is_white c).
Qed.

Lemma toLowerCase_empty (s : string) :
  JsString.toLowerCase s = "" ↔ s = "".
Proof. destruct s; simpl; split; congruence. Qed.

Lemma toLowerCase_trimEnd (s : string) :
  JsString.toLowerCase (JsString.trimEnd s)
  = JsString.trimEnd (JsString.toLowerCase s).
Proof.
  induction s as [|c s IH]; simpl; [reflexivity|].
  rewrite <- IH, is_white_lower.
  destruct (JsString.trimEnd s) as [|d t]; simpl.
  - now destruct (JsString.is_white c).
  - reflexivity.
Qed.

Lemma toLowerCase_trim (s : string) :
  JsString.toLowerCase (JsString.trim s) = JsString.trim (JsString.toLowerCase s).
Proof.
  unfold JsString.trim. now rewrite toLowerCase_trimEnd, toLowerCase_trimStart.
Qed.

Lemma truthy_false (s : string) : JsString.truthy s = false ↔ s = "".
Proof. destruct s; simpl; split; congruence. Qed.

(** ** Filter engine *)

Lemma filter_filter {A} (f g : A → bool) (l : list A) :
  List.filter g (List.filter f l) = List.filter (λ x, f x && g x) l.
Proof.
  induction l as [|x l IH]; simpl; [reflexivity|].
  destruct (f x); simpl; [destruct (g x)|]; now rewrite IH.
Qed.

Lemma filter_all {A} (l : list A) : List.filter (λ _, true) l = l.
Proof. induction l as [|x l IH]; simpl; congruence. Qed.

Lemma array_includes_spec (cats : list string) (cat : string) :
  existsb (String.eqb cat) cats = true ↔ cat ∈ cats.
Proof.
  rewrite existsb_exists, list_elem_of_In. split.
  - intros (x & Hin & Heq). now apply String.eqb_eq in Heq as ->.
  - intros Hin. exists cat. split; [assumption | apply String.eqb_refl].
Qed.

Lemma every_category_spec (C : gset string) (cats : list string) :
  forallb (λ cat, existsb (String.eqb cat) cats) (elements C) = true
  ↔ ∀ c, c ∈ C → c ∈ cats.
Proof.
  rewrite forallb_forall. split.
  - intros H c Hc. apply array_includes_spec, H, list_elem_of_In, elem_of_elements, Hc.
  - intros H c Hc. apply array_includes_spec, H, elem_of_elements, list_elem_of_In, Hc.
Qed.

Lemma size_positive (C : gset string) : (0 < size C)%nat ↔ C ≠ ∅.
Proof.
  split.
  - intros Hsz ->. rewrite size_empty in Hsz. lia.
  - intros Hne. destruct (size C) eqn:Hsz; [|lia].
    apply size_empty_iff in Hsz. exfalso. apply Hne. now apply leibniz_equiv.
Qed.

Lemma and_iff_both (A B C D : Prop) : (A ↔ B) → (C ↔ D) → (A ∧ C ↔ B ∧ D).
Proof. tauto. Qed.

Lemma filterProducts_passes (P : list product) (C : gset string) (s : string) :
  filterProducts P C s = List.filter (passes C s) P.
Proof.
  unfold filterProducts, passes. cbv zeta.
  destruct (bool_decide (0 < size C)%nat);
    destruct (JsString.truthy (JsString.trim (JsString.toLowerCase s))).
  - now rewrite filter_filter.
  - rewrite <- (filter_all (List.filter _ P)) at 1. now rewrite filter_filter.
  - reflexivity.
  - now rewrite filter_all.
Qed.

Lemma passes_spec (C : gset string) (s : string) (p : product) :
  passes C s p = true ↔ visible_spec C s p.
Proof.
  unfold passes, visible_spec, substring_ignoring_case.
  rewrite andb_true_iff.
  apply and_iff_both.
  - case_bool_decide as Hsz.
    + apply size_positive in Hsz. unfold category_set.
      destruct (categories p) as [cats|].
      * rewrite every_category_spec. split; [now right|].
        intros [HC | Hall]; [contradiction | assumption].
      * split; [discriminate|]. intros [HC | Hall]; [contradiction|].
        exfalso. apply Hsz. apply leibniz_equiv.
        apply elem_of_equiv_empty. intros c Hc.
        specialize (Hall c Hc). inversion Hall.
    + split; [|reflexivity]. intros _. left.
      destruct (decide (C = ∅)) as [|Hne]; [assumption|].
      now apply size_positive in Hne.
  - cbv zeta. rewrite <- toLowerCase_trim.
    destruct (JsString.truthy _) eqn:Htr.
    + rewrite orb_true_iff, !includes_spec. split; [intros H; now right|].
      intros [Hempty | H]; [|assumption].
      rewrite Hempty in Htr. discriminate.
    + split; [|reflexivity]. intros _. left.
      apply truthy_false in Htr. exact (proj1 (toLowerCase_empty _) Htr).
Qed.

(** C1. [filterProducts] returns, in the order of the input, exactly the
    products whose category set contains every selected label (any product
    when none is selected) and whose title or description contains the
    trimmed search text regardless of case (any product when the text trims
    to nothing); with no category and no text it returns the whole list. *)
Theorem filterProducts_visible (P : list product) (C : gset string) (s : string) :
  (∃ keep : product → bool,
     (∀ p, keep p = true ↔ visible_spec C s p) ∧
     filterProducts P C s = List.filter keep P) ∧
  filterProducts P ∅ "" = P.
Proof.
  split.
  - exists (passes C s). split; [apply passes_spec | apply filterProducts_passes].
  - rewrite filterProducts_passes. apply filter_all.
Qed.

Example scenario_categories :
  id <$> filterProducts catalogue {[ "a"; "b" ]} "" = ["1"; "4"].
Proof. vm_compute. reflexivity. Qed.

Example scenario_search :
  id <$> filterProducts catalogue ∅ "  lAmp " = ["1"; "2"] ∧
  id <$> filterProducts catalogue {[ "a" ]} "lamp" = ["1"; "2"] ∧
  id <$> filterProducts catalogue {[ "b" ]} "lamp" = ["1"].
Proof. vm_compute. auto. Qed.

(** ** Promotion evaluator *)

Lemma hasActivePromotion_window (now : Z) (p : product) :
  hasActivePromotion now p = true ↔
    (∃ d, discount_percent p = Some d ∧ 0 < d) ∧
    (∃ e, promotion_end p = Some e ∧
          dateValue (promotion_start p) <= now ∧ now <= e).
Proof.
  unfold hasActivePromotion, dateValue.
  destruct (discount_percent p) as [d|].
  2:{ split; [discriminate | intros [(d & [=] & _) _]]. }
  assert (Hguard : (d =? 0) || (d <=? 0) = negb (0 <? d)).
  { destruct (Z.eqb_spec d 0), (Z.leb_spec d 0), (Z.ltb_spec 0 d);
      simpl; try reflexivity; lia. }
  rewrite Hguard. destruct (Z.ltb_spec 0 d) as [Hpos|Hneg]; simpl.
  - destruct (promotion_end p) as [e|].
    + rewrite andb_true_iff, !Z.leb_le. split.
      * intros Hwin. split; [exists d | exists e]; auto.
      * intros [_ (e' & [= <-] & Hwin)]. exact Hwin.
    + split; [discriminate | intros [_ (e & [=] & _)]].
  - split; [discriminate|].
    intros [(d' & [= <-] & Hpos) _]. lia.
Qed.

(** C2. [hasActivePromotion] is true exactly when the discount is present and
    positive, the promotion end is present, and the clock lies between the
    start (the epoch when the start is missing) and the end; it is false when
    the discount is 0 or missing or the end is missing. *)
Theorem hasActivePromotion_iff (now : Z) (p : product) :
  (hasActivePromotion now p = true ↔
     (∃ d, discount_percent p = Some d ∧ 0 < d) ∧
     (∃ e, promotion_end p = Some e ∧
           dateValue (promotion_start p) <= now ∧ now <= e)) ∧
  (discount_percent p = Some 0 ∨ discount_percent p = None ∨
   promotion_end p = None → hasActivePromotion now p = false).
Proof.
  split; [apply hasActivePromotion_window|].
  intros Hmissing. destruct (hasActivePromotion now p) eqn:Hact; [|reflexivity].
  apply hasActivePromotion_window in Hact.
  destruct Hact as [(d & Hd & Hpos) (e & He & _)].
  destruct Hmissing as [H0 | [Hnone | Hnone]]; [|congruence..].
  rewrite Hd in H0. injection H0 as ->. lia.
Qed.

Lemma hasActivePromotion_iff_witness :
  hasActivePromotion (1000 * day) lamp_on_sale = true ∧
  hasActivePromotion (1000 * day) (plain_product "p1" None) = false.
Proof.
  split.
  - apply (proj1 (hasActivePromotion_iff (1000 * day) lamp_on_sale)). split.
    + exists 20. split; [reflexivity | lia].
    + exists (1001 * day). split; [reflexivity | vm_compute; split; discriminate].
  - apply (proj2 (hasActivePromotion_iff (1000 * day) (plain_product "p1" None))).
    right; left. reflexivity.
Defined.

(** With the clock after the epoch, a missing start is no lower bound. *)
Lemma hasActivePromotion_no_start (now : Z) (p : product) :
  0 <= now → promotion_start p = None →
  (hasActivePromotion now p = true ↔
     (∃ d, discount_percent p = Some d ∧ 0 < d) ∧
     (∃ e, promotion_end p = Some e ∧ now <= e)).
Proof.
  intros Hnow Hstart. rewrite hasActivePromotion_window, Hstart. simpl.
  split; intros [Hd (e & He & Hwin)]; (split; [exact Hd | exists e]); auto with lia.
Qed.

Example scenario_sale_price :
  hasActivePromotion (1000 * day) lamp_on_sale = true ∧
  ∃ q, getDiscountedPrice (1000 * day) lamp_on_sale = Some q ∧ (q == 80)%Q.
Proof. split; [reflexivity|]. eexists; split; reflexivity. Qed.

(** At a price of 0 and a running promotion the code returns [null], not the
    discounted amount 0. *)
Lemma salePrice_claim_fails_at_zero_price :
  ¬ salePrice_claim (1000 * day) free_sample.
Proof.
  intros [_ Hsale].
  destruct (Hsale 0%Q eq_refl eq_refl) as (q & Hq & _).
  vm_compute in Hq. discriminate Hq.
Qed.

(** C3 (amended). [getDiscountedPrice] is absent when the product is not on
    promotion, has no price, or has the price 0 (which the code treats as not
    set); for a product on promotion with a non-zero price [pr] and discount
    [d] it is [pr * (1 - d / 100)]. *)
Theorem getDiscountedPrice_spec (now : Z) (p : product) :
  (hasActivePromotion now p = false → getDiscountedPrice now p = None) ∧
  (price p = None → getDiscountedPrice now p = None) ∧
  (∀ pr, price p = Some pr → (pr == 0)%Q → getDiscountedPrice now p = None) ∧
  (∀ pr, hasActivePromotion now p = true → price p = Some pr → ¬ (pr == 0)%Q →
     ∃ d, discount_percent p = Some d ∧ 0 < d ∧
          getDiscountedPrice now p = Some (pr * (1 - inject_Z d / 100))%Q).
Proof.
  unfold getDiscountedPrice. repeat split.
  - intros ->. destruct (price p); [|reflexivity].
    now rewrite orb_true_r.
  - now intros ->.
  - intros pr -> Hz. apply Qeq_bool_iff in Hz. now rewrite Hz.
  - intros pr Hact -> Hnz. rewrite Hact.
    destruct (Qeq_bool pr 0) eqn:Hz; [apply Qeq_bool_iff in Hz; contradiction|].
    simpl. apply hasActivePromotion_window in Hact.
    destruct Hact as [(d & Hd & Hpos) _]. exists d. now rewrite Hd.
Qed.

Lemma getDiscountedPrice_spec_witness :
  ∃ d, discount_percent lamp_on_sale = Some d ∧ 0 < d ∧
       getDiscountedPrice (1000 * day) lamp_on_sale
       = Some (100 * (1 - inject_Z d / 100))%Q.
Proof.
  apply (proj2 (proj2 (proj2 (getDiscountedPrice_spec (1000 * day) lamp_on_sale))) 100%Q).
  - reflexivity.
  - reflexivity.
  - intros H. vm_compute in H. discriminate H.
Defined.

(** A discount of 150 percent with the clock inside the window is on
    promotion: the code has no upper bound on the discount. *)
Lemma out_of_range_claim_fails_above_100 :
  ¬ out_of_range_claim (1000 * day) overdiscounted.
Proof.
  intros Hclaim.
  assert (Hfalse : hasActivePromotion (1000 * day) overdiscounted = false).
  { apply Hclaim. left. exists 150. split; [reflexivity | lia]. }
  vm_compute in Hfalse. discriminate Hfalse.
Qed.

(** C4 (amended). A product whose discount is missing, 0 or negative, or whose
    promotion end is missing, is not on promotion at any clock reading. *)
Theorem hasActivePromotion_never (now : Z) (p : product) :
  discount_percent p = None ∨ (∃ d, discount_percent p = Some d ∧ d <= 0) ∨
  promotion_end p = None →
  hasActivePromotion now p = false.
Proof.
  intros Hout. destruct (hasActivePromotion now p) eqn:Hact; [|reflexivity].
  apply hasActivePromotion_window in Hact.
  destruct Hact as [(d & Hd & Hpos) (e & He & _)].
  destruct Hout as [Hnone | [(d' & Hd' & Hle) | Hnone]]; try congruence.
  rewrite Hd in Hd'. injection Hd' as <-. lia.
Qed.

Lemma hasActivePromotion_never_witness :
  hasActivePromotion (1000 * day) negative_discount = false.
Proof.
  apply hasActivePromotion_never. right; left. exists (-5).
  split; [reflexivity | lia].
Defined.

(** ** Media gallery *)



(** ** Product modal *)

Lemma find_product_absent (productId : string) (products : list product) :
  (∀ p, p ∈ products → id p ≠ productId) → find_product productId products = None.
Proof.
  intros Habsent. unfold find_product.
  destruct (List.find _ products) as [p|] eqn:Hfind; [|reflexivity].
  apply find_some in Hfind as [Hin Heq].
  apply String.eqb_eq in Heq. apply list_elem_of_In in Hin.
  now apply Habsent in Hin.
Qed.

(** C7. Opening an id that no product of the collection carries changes
    nothing: the page, and with it the selection, stays as it was; a closed
    modal stays closed. *)
Theorem openProductModal_missing (productId : string) (s : page) :
  (∀ p, p ∈ allProducts s → id p ≠ productId) →
  openProductModal productId s = s ∧
  selection_of (openProductModal productId s) = selection_of s ∧
  (selection_of s = Closed → selection_of (openProductModal productId s) = Closed).
Proof.
  intros Habsent. apply find_product_absent in Habsent.
  unfold openProductModal. rewrite Habsent. auto.
Qed.

Lemma openProductModal_missing_witness :
  openProductModal "missing-id" (shop_page [two_media]) = shop_page [two_media] ∧
  selection_of (openProductModal "missing-id" (shop_page [two_media])) = Closed.
Proof.
  assert (Habsent : ∀ p, p ∈ allProducts (shop_page [two_media]) → id p ≠ "missing-id").
  { intros p Hin. apply list_elem_of_singleton in Hin as ->. discriminate. }
  destruct (openProductModal_missing "missing-id" (shop_page [two_media]) Habsent)
    as (Hsame & _ & Hclosed).
  split; [exact Hsame | apply Hclosed; reflexivity].
Defined.

(** The version with click tracking sends no request for a missing id. *)
Lemma tracking_open_missing (productId : string) (s : ClickTracking.page) :
  (∀ p, p ∈ ClickTracking.allProducts s → id p ≠ productId) →
  ClickTracking.openProductModal productId s = s.
Proof.
  intros Habsent. apply find_product_absent in Habsent.
  unfold ClickTracking.openProductModal. now rewrite Habsent.
Qed.

Lemma find_product_id (productId : string) (products : list product) (p : product) :
  find_product productId products = Some p → id p = productId.
Proof.
  intros Hfind. apply find_some in Hfind as [_ Heq]. now apply String.eqb_eq.
Qed.

Lemma galleryHtml_lookup (images : list string) (i : nat) (src : string) :
  (1 < length images)%nat → images !! i = Some src →
  galleryHtml images !! i
  = Some {| thumb_src := src; thumb_isVideo := isVideo src;
            thumb_active := (i =? 0)%nat |}.
Proof.
  intros Hlen Hi. unfold galleryHtml.
  apply Nat.ltb_lt in Hlen. rewrite Hlen.
  now rewrite list_lookup_imap, Hi.
Qed.

Lemma galleryHtml_length (images : list string) :
  (1 < length images)%nat → length (galleryHtml images) = length images.
Proof.
  intros Hlen. unfold galleryHtml. apply Nat.ltb_lt in Hlen. rewrite Hlen.
  apply length_imap.
Qed.

Lemma galleryHtml_none (images : list string) (i : nat) :
  (length images ≤ 1 ∨ length images ≤ i)%nat → galleryHtml images !! i = None.
Proof.
  intros Hout. unfold galleryHtml.
  destruct (Nat.ltb_spec 1 (length images)) as [Hlen|Hlen]; [|reflexivity].
  apply lookup_ge_None. rewrite length_imap. lia.
Qed.


Lemma active_index_after_click (g : list thumb) (i : nat) :
  (i < length g)%nat →
  existsb thumb_active (alter activate i (deactivate <$> g)) = true ∧
  active_index (alter activate i (deactivate <$> g)) = i.
Proof.
  revert i. induction g as [|t g IH]; intros i Hi; simpl in Hi; [lia|].
  destruct i as [|i]; [simpl; auto|].
  destruct (IH i) as [Hex Hidx]; [lia|].
  rewrite fmap_cons. cbn [alter list_alter].
  cbn [existsb active_index deactivate thumb_active orb].
  rewrite Hex, Hidx. auto.
Qed.






(** The handler itself does not look at whether the modal is open: once a
    product has been shown, it replaces the main media also after a close. *)
Lemma changeModalMedia_after_close (s : page) (body : modal_content)
    (src : string) (thumb : nat) (video : bool) :
  modalBody s = Some body →
  ∃ s' body',
    changeModalMedia src thumb video (closeModal None s) = Some s' ∧
    modalBody s' = Some body' ∧ main_src body' = src ∧ modal_active s' = false.
Proof.
  intros Hbody. unfold changeModalMedia, closeModal. cbn [modalBody].
  rewrite Hbody. eexists _, _. repeat split.
Qed.

(** ** Click tracking *)

Lemma update_found_split (productId : string) (products : list product) (p : product) :
  find_product productId products = Some p →
  ∃ before after,
    products = before ++ p :: after ∧
    (∀ q, q ∈ before → id q ≠ productId) ∧
    ClickTracking.update_found productId products
    = before ++ ClickTracking.add_click p :: after.
Proof.
  unfold find_product. induction products as [|q rest IH]; simpl; [discriminate|].
  destruct (String.eqb_spec (id q) productId) as [Heq|Hne].
  - intros [= ->]. exists [], rest. repeat split. intros q Hq. inversion Hq.
  - intros Hfind. destruct (IH Hfind) as (before & after & -> & Hbefore & Hupd).
    exists (q :: before), after. repeat split.
    + intros r Hr. apply elem_of_cons in Hr as [-> | Hr]; auto.
    + simpl. now rewrite Hupd.
Qed.

Lemma find_product_app (productId : string) (before after : list product) (p : product) :
  (∀ q, q ∈ before → id q ≠ productId) → id p = productId →
  find_product productId (before ++ p :: after) = Some p.
Proof.
  intros Hbefore Hid. unfold find_product.
  induction before as [|q before IH]; simpl.
  - apply String.eqb_eq in Hid. now rewrite Hid.
  - destruct (String.eqb_spec (id q) productId) as [Heq|Hne].
    + exfalso. apply (Hbefore q); [left | assumption].
    + apply IH. intros r Hr. apply Hbefore. now right.
Qed.

(** C9. In the version with click tracking, opening a product of the
    collection sends one increment request and leaves the cached counts as
    they are; when the request completes, with whatever status, the cached
    [click_count] of that product (and of no other) goes up by exactly one;
    when the request is rejected the collection is unchanged and one line is
    logged. *)
Theorem trackProductClick_counts (s : ClickTracking.page) (productId : string)
    (product : product) :
  find_product productId (ClickTracking.allProducts s) = Some product →
  let opened := ClickTracking.openProductModal productId s in
  ClickTracking.allProducts opened = ClickTracking.allProducts s ∧
  ClickTracking.requests opened = ClickTracking.requests s ++ [productId] ∧
  (∀ status,
     let s' := ClickTracking.trackProductClick_settled productId
                 (ClickTracking.Response status) opened in
     (∃ before after,
        ClickTracking.allProducts s = before ++ product :: after ∧
        (∀ q, q ∈ before → id q ≠ productId) ∧
        ClickTracking.allProducts s'
        = before ++ ClickTracking.add_click product :: after) ∧
     find_product productId (ClickTracking.allProducts s')
     = Some (ClickTracking.add_click product) ∧
     ClickTracking.clicks (ClickTracking.add_click product)
     = ClickTracking.clicks product + 1 ∧
     ClickTracking.console s' = ClickTracking.console s) ∧
  (∀ err,
     let s' := ClickTracking.trackProductClick_settled productId
                 (ClickTracking.Rejected err) opened in
     ClickTracking.allProducts s' = ClickTracking.allProducts s ∧
     ClickTracking.modalBody s' = ClickTracking.modalBody opened ∧
     ClickTracking.modal_active s' = ClickTracking.modal_active opened ∧
     ∃ line, ClickTracking.console s' = ClickTracking.console s ++ [line]).
Proof.
  intros Hfind opened. subst opened.
  unfold ClickTracking.openProductModal. rewrite Hfind.
  cbn [ClickTracking.trackProductClick ClickTracking.allProducts
       ClickTracking.requests ClickTracking.console].
  split; [reflexivity|]. split; [reflexivity|]. split.
  - intros status. cbn.
    destruct (update_found_split _ _ _ Hfind) as (before & after & Hsplit & Hbefore & Hupd).
    split; [|split; [|split]].
    + exists before, after. auto.
    + rewrite Hupd. apply find_product_app; [assumption|].
      apply (find_product_id _ _ _ Hfind).
    + reflexivity.
    + reflexivity.
  - intros err. cbn. repeat split. eexists. reflexivity.
Qed.

Lemma trackProductClick_counts_witness :
  find_product "p5"
    (ClickTracking.allProducts
       (ClickTracking.trackProductClick_settled "p5" (ClickTracking.Response 401)
          (ClickTracking.openProductModal "p5" (tracking_page [two_media]))))
  = Some (ClickTracking.add_click two_media).
Proof.
  exact (proj1 (proj2 (proj1 (proj2 (proj2
           (trackProductClick_counts (tracking_page [two_media]) "p5" two_media eq_refl)))
           401%nat))).
Defined.

(** ** Sorting *)

Lemma sort_insert_perm {A} (compareFn : A → A → Z) (x : A) (l : list A) :
  Permutation (sort_insert compareFn x l) (x :: l).
Proof.
  induction l as [|y l IH]; simpl; [reflexivity|].
  destruct (compareFn x y <=? 0); [reflexivity|].
  rewrite IH. apply perm_swap.
Qed.

Lemma Array_sort_perm {A} (compareFn : A → A → Z) (l : list A) :
  Permutation (Array_sort compareFn l) l.
Proof.
  induction l as [|x l IH]; simpl; [reflexivity|].
  unfold Array_sort in *. simpl. rewrite sort_insert_perm. now constructor.
Qed.

Lemma Array_sort_ext {A} (f g : A → A → Z) (l : list A) :
  (∀ a b, f a b = g a b) → Array_sort f l = Array_sort g l.
Proof.
  intros Hfg. unfold Array_sort. induction l as [|x l IH]; simpl; [reflexivity|].
  rewrite IH. generalize (foldr (sort_insert g) [] l). intros m.
  induction m as [|y m IHm]; simpl; [reflexivity|]. now rewrite Hfg, IHm.
Qed.

Section Descending.

Context {A : Type} (key : A → Z).

Lemma sort_insert_sorted (x : A) (l : list A) :
  StronglySorted (descending key) l →
  StronglySorted (descending key) (sort_insert (λ a b, key b - key a) x l).
Proof.
  induction 1 as [|y l Hsorted IH Hall]; simpl.
  - repeat constructor.
  - destruct (Z.leb_spec (key y - key x) 0) as [Hle|Hgt].
    + constructor; [now constructor|].
      constructor; [unfold descending; lia|].
      eapply Forall_impl; [exact Hall|]. unfold descending. intros z Hz. simpl in Hz. lia.
    + constructor; [assumption|].
      rewrite sort_insert_perm. constructor; [unfold descending; lia | assumption].
  Qed.

Lemma Array_sort_sorted (l : list A) :
  StronglySorted (descending key) (Array_sort (λ a b, key b - key a) l).
Proof.
  induction l as [|x l IH]; [constructor|].
  unfold Array_sort in *. simpl. now apply sort_insert_sorted.
Qed.

(** Stability: elements with the same key keep their relative order. *)
Lemma sort_insert_stable (k : Z) (x : A) (l : list A) :
  List.filter (λ a, key a =? k) (sort_insert (λ a b, key b - key a) x l)
  = List.filter (λ a, key a =? k) (x :: l).
Proof.
  induction l as [|y l IH]; [reflexivity|].
  cbn [sort_insert]. destruct (Z.leb_spec (key y - key x) 0) as [Hle|Hgt];
    [reflexivity|].
  cbn [List.filter] in *. rewrite IH.
  destruct (Z.eqb_spec (key y) k), (Z.eqb_spec (key x) k); try reflexivity; lia.
Qed.

Lemma Array_sort_stable (k : Z) (l : list A) :
  List.filter (λ a, key a =? k) (Array_sort (λ a b, key b - key a) l)
  = List.filter (λ a, key a =? k) l.
Proof.
  induction l as [|x l IH]; [reflexivity|].
  unfold Array_sort in *. cbn [foldr]. rewrite sort_insert_stable.
  cbn [List.filter]. now rewrite IH.
Qed.

End Descending.

(** ** Recent section *)

Lemma section_of_cards (empty : section_view) (cards : list product) :
  (if (length cards =? 0)%nat then empty else Cards cards)
  = match cards with [] => empty | p :: l => Cards (p :: l) end.
Proof. now destruct cards. Qed.

(** In the version with click tracking the scenario's ten days old product
    is shown in Recent. *)
Lemma recent_claim_fails_with_click_tracking :
  ¬ recent_claim ClickTracking.renderRecentProducts (1000 * day)
      [two_days_old; ten_days_old].
Proof.
  intros (keep & ranked & Hkeep & Hperm & _ & Hrender).
  assert (Hshown : ClickTracking.renderRecentProducts [two_days_old; ten_days_old]
                   = Cards [two_days_old; ten_days_old]) by reflexivity.
  rewrite Hshown in Hrender.
  assert (Hin : ten_days_old ∈ ranked).
  { destruct (take 8 ranked) as [|c cards] eqn:Htake; [discriminate|].
    assert (Hcards : c :: cards = [two_days_old; ten_days_old]) by congruence.
    assert (Hin : ten_days_old ∈ take 8 ranked).
    { rewrite Htake, Hcards. right; left. }
    exact (subseteq_take 8 ranked _ Hin). }
  rewrite Hperm in Hin. apply list_elem_of_In, filter_In in Hin as [_ Hk].
  apply Hkeep in Hk as (t & Ht & Hrecent).
  injection Ht as <-. vm_compute in Hrecent. now apply Hrecent.
Qed.

(** C6 (amended). In [index.js] the Recent section shows the products
    created no earlier than seven days before [now], newest first, cut to
    the first eight, and is hidden when there is none. The version with
    click tracking has no age limit: it shows the eight newest products of
    the whole collection, and a message when the collection is empty. *)
Theorem renderRecentProducts_spec (now : Z) (P : list product) :
  recent_claim (renderRecentProducts now) now P ∧
  ∃ ranked,
    Permutation ranked P ∧
    StronglySorted newest_first ranked ∧
    ClickTracking.renderRecentProducts P
    = match take 8 ranked with
      | [] => NoData "No products yet"
      | cards => Cards cards
      end.
Proof.
  split.
  - exists (λ p, match created_at p with
                 | Some t => now - 7 * day <=? t
                 | None => false
                 end).
    exists (Array_sort (λ a b, dateValue (created_at b) - dateValue (created_at a))
              (List.filter (λ p, match created_at p with
                                 | Some t => now - 7 * day <=? t
                                 | None => false
                                 end) P)).
    split; [|split; [apply Array_sort_perm|split]].
    + intros p. unfold within_last_week. destruct (created_at p) as [t|].
      * rewrite Z.leb_le. split; [intros H; now exists t | now intros (? & [= <-] & H)].
      * split; [discriminate | now intros (? & [=] & _)].
    + apply (Array_sort_sorted (λ p, dateValue (created_at p))).
    + unfold renderRecentProducts. cbv zeta. apply section_of_cards.
  - exists (Array_sort (λ a b, dateValue (created_at b) - dateValue (created_at a)) P).
    split; [apply Array_sort_perm|split].
    + apply (Array_sort_sorted (λ p, dateValue (created_at p))).
    + unfold ClickTracking.renderRecentProducts. cbv zeta. apply section_of_cards.
Qed.

Example scenario_recent :
  renderRecentProducts (1000 * day) [two_days_old; ten_days_old]
  = Cards [two_days_old].
Proof. reflexivity. Qed.

(** ** Category index *)

(** With ["b"] first seen before ["1"] and both counted once, the entry of
    ["1"] comes first: [Object.entries] lists array-index keys before the
    others. *)
Lemma categoryCounts_claim_fails_on_numbered_labels :
  ¬ categoryCounts_claim numbered_labels.
Proof.
  intros (entries & Hload & _ & _ & _ & _ & _ & Hties).
  vm_compute in Hload. injection Hload as <-.
  specialize (Hties 1). vm_compute in Hties.
  apply sublist_cons_l in Hties as (k1 & k2 & Hsplit & Hrest).
  destruct k1 as [|x [|y k1]]; simpl in Hsplit.
  - inversion Hsplit.
  - injection Hsplit as _ <-. inversion Hrest.
  - destruct k1; inversion Hsplit.
Qed.

Lemma mem_spec (k : string) (l : list string) : mem k l = true ↔ k ∈ l.
Proof. apply array_includes_spec. Qed.

Lemma mem_app (k : string) (l1 l2 : list string) :
  mem k (l1 ++ l2) = mem k l1 || mem k l2.
Proof. unfold mem. apply existsb_app. Qed.

Lemma first_seen_elem (k : string) (l : list string) : k ∈ first_seen l ↔ k ∈ l.
Proof.
  induction l as [|x l IH]; simpl; [reflexivity|].
  rewrite !elem_of_cons, <- IH, !list_elem_of_In, filter_In.
  destruct (String.eqb_spec k x) as [->|Hne]; simpl; [tauto|].
  split; [tauto|]. intros [? | ?]; [tauto | auto].
Qed.

Lemma NoDup_filter_bool {A} (f : A → bool) (l : list A) :
  NoDup l → NoDup (List.filter f l).
Proof.
  induction 1 as [|x l Hx Hl IH]; simpl; [constructor|].
  destruct (f x); [|assumption]. constructor; [|assumption].
  rewrite list_elem_of_In, filter_In, <- list_elem_of_In. tauto.
Qed.

Lemma first_seen_NoDup (l : list string) : NoDup (first_seen l).
Proof.
  induction l as [|x l IH]; simpl; constructor.
  - rewrite list_elem_of_In, filter_In, String.eqb_refl. simpl. intros [_ [=]].
  - now apply NoDup_filter_bool.
Qed.

Lemma add_keys_first_seen (acc l : list string) :
  foldl add_key acc l
  = acc ++ List.filter (λ k, negb (mem k acc)) (first_seen l).
Proof.
  revert acc. induction l as [|x l IH]; intros acc; simpl.
  - now rewrite app_nil_r.
  - rewrite IH, filter_filter. unfold add_key.
    destruct (mem x acc) eqn:Hx; simpl.
    + f_equal. apply List.filter_ext. intros k.
      destruct (String.eqb_spec k x) as [->|Hne]; simpl; [now rewrite Hx | reflexivity].
    + rewrite <- app_assoc. simpl. do 2 f_equal. apply List.filter_ext. intros k.
      rewrite mem_app. unfold mem at 2. simpl. rewrite orb_false_r, negb_orb.
      apply andb_comm.
Qed.

Lemma own_property_None (o : object) (k : string) :
  own_property o k = None ↔ mem k o.*1 = false.
Proof.
  induction o as [|[k' v] o IH]; simpl; [easy|].
  unfold mem in *. simpl. rewrite (String.eqb_sym k k').
  destruct (String.eqb k' k); simpl; [split; discriminate | exact IH].
Qed.

Lemma own_property_elem (o : object) (k : string) (v : jsval) :
  NoDup o.*1 → (k, v) ∈ o → own_property o k = Some v.
Proof.
  induction o as [|[k' v'] o IH]; intros Hnd Hin; [inversion Hin|].
  simpl in *. apply NoDup_cons in Hnd as [Hk' Hnd].
  apply elem_of_cons in Hin as [[= <- <-] | Hin].
  - now rewrite String.eqb_refl.
  - destruct (String.eqb_spec k' k) as [->|Hne]; [|now apply IH].
    exfalso. apply Hk'. apply list_elem_of_fmap. now exists (k, v).
Qed.

Lemma object_put_keys (o : object) (k : string) (v : jsval) :
  (object_put o k v).*1 = add_key o.*1 k.
Proof.
  unfold add_key, mem. induction o as [|[k' v'] o IH]; [reflexivity|].
  cbn [object_put]. rewrite !fmap_cons. cbn [fst existsb].
  rewrite (String.eqb_sym k k'). destruct (String.eqb k' k); cbn [orb]; [reflexivity|].
  rewrite fmap_cons, IH. cbn [fst]. now destruct (existsb _ _).
Qed.

Lemma object_put_own (o : object) (k k' : string) (v : jsval) :
  own_property (object_put o k v) k'
  = if String.eqb k k' then Some v else own_property o k'.
Proof.
  induction o as [|[k0 v0] o IH]; simpl.
  - reflexivity.
  - destruct (String.eqb_spec k0 k) as [->|Hne]; simpl.
    + now destruct (String.eqb k k').
    + rewrite IH. destruct (String.eqb_spec k0 k') as [->|Hne'].
      * destruct (String.eqb_spec k k'); [congruence | reflexivity].
      * reflexivity.
Qed.

Lemma object_put_numeric (o : object) (k : string) (n : Z) :
  numeric o → numeric (object_put o k (Num n)).
Proof.
  unfold numeric. induction 1 as [|[k' v'] o Hv Ho IH]; simpl.
  - repeat constructor. now exists n.
  - destruct (String.eqb k' k); constructor; auto. now exists n.
Qed.

Lemma numeric_own (o : object) (k : string) (v : jsval) :
  numeric o → own_property o k = Some v → v = Num (counted o k).
Proof.
  unfold counted. intros Hnum Hown. rewrite Hown.
  induction Hnum as [|[k' v'] o Hv Ho IH]; simpl in Hown; [discriminate|].
  destruct (String.eqb k' k); [|auto].
  injection Hown as <-. destruct Hv as [n Hn]. simpl in Hn. now rewrite Hn.
Qed.

(** One counting step on an object of numbers, for an ordinary label. *)
Lemma count_category_step (o : object) (cat : string) :
  numeric o → inherited_name cat = false →
  count_category o cat = object_put o cat (Num (counted o cat + 1)).
Proof.
  intros Hnum Hord. unfold count_category, object_set, object_get.
  assert (Hproto : String.eqb cat "__proto__" = false).
  { destruct (String.eqb_spec cat "__proto__") as [->|]; [discriminate Hord | reflexivity]. }
  rewrite Hproto, Hord.
  destruct (own_property o cat) as [v|] eqn:Hown.
  - rewrite (numeric_own _ _ _ Hnum Hown). reflexivity.
  - unfold counted. now rewrite Hown.
Qed.

Lemma occurrences_cons (k x : string) (l : list string) :
  occurrences k (x :: l) = (if String.eqb k x then 1 else 0) + occurrences k l.
Proof.
  unfold occurrences. simpl. destruct (String.eqb k x); simpl; lia.
Qed.

Lemma count_labels (l : list string) (o : object) :
  numeric o → Forall (λ k, inherited_name k = false) l →
  numeric (foldl count_category o l) ∧
  (foldl count_category o l).*1 = foldl add_key o.*1 l ∧
  ∀ k, counted (foldl count_category o l) k = counted o k + occurrences k l.
Proof.
  revert o. induction l as [|x l IH]; intros o Hnum Hord.
  - simpl. repeat split; [assumption|]. intros k. unfold occurrences. simpl. lia.
  - apply Forall_cons in Hord as [Hx Hord]. cbn [foldl].
    rewrite (count_category_step _ _ Hnum Hx).
    destruct (IH (object_put o x (Num (counted o x + 1)))) as (Hn & Hk & Hc);
      [now apply object_put_numeric | assumption |].
    split; [assumption|]. split.
    + now rewrite Hk, object_put_keys.
    + intros k. rewrite Hc, occurrences_cons. unfold counted at 1.
      rewrite object_put_own, (String.eqb_sym k x).
      destruct (String.eqb_spec x k) as [->|Hne]; [lia|].
      fold (counted o k). lia.
Qed.

Lemma count_products (P : list product) (o : object) :
  foldl count_product o P = foldl count_category o (all_labels P).
Proof.
  revert o. unfold all_labels. induction P as [|p P IH]; intros o; [reflexivity|].
  rewrite fmap_cons. cbn [concat foldl]. rewrite foldl_app, IH.
  unfold count_product, category_set. now destruct (categories p).
Qed.

Lemma numeric_entries (l : list (string * jsval)) :
  numeric l → mapM numeric_entry l = Some (to_entry <$> l).
Proof.
  induction 1 as [|[k v] l [n Hn] Hl IH]; [reflexivity|].
  simpl in Hn. subst v. cbn. rewrite IH. reflexivity.
Qed.

Lemma occurrences_app (k : string) (l1 l2 : list string) :
  occurrences k (l1 ++ l2) = occurrences k l1 + occurrences k l2.
Proof. unfold occurrences. rewrite List.filter_app, length_app. lia. Qed.

Lemma occurrences_absent (k : string) (l : list string) :
  k ∉ l → occurrences k l = 0.
Proof.
  induction l as [|x l IH]; intros Hk; [reflexivity|].
  rewrite occurrences_cons, IH by (intros ?; apply Hk; now right).
  destruct (String.eqb_spec k x) as [->|]; [|reflexivity].
  exfalso. apply Hk. left.
Qed.

Lemma occurrences_NoDup (k : string) (l : list string) :
  NoDup l → occurrences k l = if mem k l then 1 else 0.
Proof.
  induction 1 as [|x l Hx Hl IH]; [reflexivity|].
  rewrite occurrences_cons. unfold mem in *. simpl.
  destruct (String.eqb_spec k x) as [->|Hne]; simpl; [|exact IH].
  now rewrite occurrences_absent.
Qed.

Lemma occurrences_products (k : string) (P : list product) :
  label_sets P → occurrences k (all_labels P) = products_with k P.
Proof.
  unfold label_sets, all_labels, products_with.
  induction P as [|p P IH]; intros Hsets; [reflexivity|].
  rewrite fmap_cons. cbn [concat List.filter].
  rewrite occurrences_app, IH by (intros q Hq; apply Hsets; now right).
  rewrite occurrences_NoDup by (apply Hsets; left). unfold mem.
  destruct (existsb _ _); cbn [length]; lia.
Qed.

Lemma memberships_length (P : list product) :
  memberships P = Z.of_nat (length (all_labels P)).
Proof.
  unfold memberships, all_labels. induction P as [|p P IH]; [reflexivity|].
  rewrite fmap_cons. cbn [foldr concat]. rewrite IH, length_app. lia.
Qed.

Lemma sum_over_indicator (x : string) (K : list string) :
  NoDup K → x ∈ K → sum_over (λ k, if String.eqb k x then 1 else 0) K = 1.
Proof.
  unfold sum_over. induction 1 as [|y K Hy HK IH]; intros Hx; [inversion Hx|].
  cbn [foldr]. apply elem_of_cons in Hx as [<- | Hx].
  - rewrite String.eqb_refl.
    assert (Hzero : ∀ L, x ∉ L → foldr (λ k n, (if String.eqb k x then 1 else 0) + n) 0 L = 0).
    { induction L as [|z L IHL]; intros Hz; [reflexivity|]. cbn [foldr].
      rewrite IHL by (intros ?; apply Hz; now right).
      destruct (String.eqb_spec z x) as [->|]; [|reflexivity].
      exfalso. apply Hz. left. }
    rewrite Hzero by assumption. reflexivity.
  - rewrite IH by assumption.
    destruct (String.eqb_spec y x) as [->|]; [contradiction | reflexivity].
Qed.

Lemma sum_over_plus (f g : string → Z) (K : list string) :
  sum_over (λ k, f k + g k) K = sum_over f K + sum_over g K.
Proof.
  unfold sum_over. induction K as [|y K IH]; [reflexivity|]. cbn [foldr]. lia.
Qed.

Lemma sum_over_ext (f g : string → Z) (K : list string) :
  (∀ k, k ∈ K → f k = g k) → sum_over f K = sum_over g K.
Proof.
  unfold sum_over. induction K as [|y K IH]; intros Hfg; [reflexivity|].
  cbn [foldr]. rewrite IH by (intros k Hk; apply Hfg; now right).
  now rewrite Hfg by left.
Qed.

(** Summed over the distinct labels, the occurrences give the length. *)
Lemma sum_over_occurrences (K l : list string) :
  NoDup K → (∀ x, x ∈ l → x ∈ K) →
  sum_over (λ k, occurrences k l) K = Z.of_nat (length l).
Proof.
  intros HK. induction l as [|x l IH]; intros Hsub.
  - unfold sum_over, occurrences. simpl. induction K; [reflexivity|].
    cbn [foldr]. apply NoDup_cons in HK as [_ HK]. now rewrite IHK.
  - rewrite (sum_over_ext _ (λ k, (if String.eqb k x then 1 else 0) + occurrences k l))
      by (intros k _; apply occurrences_cons).
    rewrite sum_over_plus, sum_over_indicator, IH; [cbn [length]; lia | ..].
    + intros y Hy. apply Hsub. now right.
    + assumption.
    + apply Hsub. left.
Qed.

Lemma total_perm (l l' : list category_entry) :
  Permutation l l' → total l = total l'.
Proof.
  unfold total. induction 1; cbn [foldr]; lia.
Qed.

Lemma total_counted (o : object) :
  numeric o → NoDup o.*1 →
  total (to_entry <$> o) = sum_over (counted o) o.*1.
Proof.
  intros Hnum Hnd.
  assert (Hgen : ∀ l : object, (∀ e, e ∈ l → e ∈ o) →
            total (to_entry <$> l) = sum_over (counted o) l.*1).
  { induction l as [|[k v] l IH]; intros Hsub; [reflexivity|].
    rewrite !fmap_cons. unfold total, sum_over in *. cbn [foldr].
    rewrite IH by (intros e He; apply Hsub; now right).
    f_equal. cbn [to_entry count fst snd].
    assert (Hown : own_property o k = Some v)
      by (apply own_property_elem; [assumption | apply Hsub; left]).
    rewrite (numeric_own _ _ _ Hnum Hown). reflexivity. }
  apply Hgen. auto.
Qed.

Lemma filter_fst (f : string → bool) (o : object) :
  List.filter f o.*1 = (List.filter (λ e, f e.1) o).*1.
Proof.
  induction o as [|[k v] o IH]; [reflexivity|].
  rewrite fmap_cons. cbn [List.filter fst]. destruct (f k); [rewrite fmap_cons|];
    now rewrite IH.
Qed.

Lemma filter_split_perm {A} (f : A → bool) (l : list A) :
  Permutation (List.filter f l ++ List.filter (λ x, negb (f x)) l) l.
Proof.
  induction l as [|x l IH]; [reflexivity|]. cbn [List.filter].
  destruct (f x); cbn [negb app].
  - now constructor.
  - rewrite <- Permutation_middle. now constructor.
Qed.

Lemma Object_entries_perm (o : object) : Permutation (Object_entries o) o.
Proof.
  unfold Object_entries. rewrite Array_sort_perm. apply filter_split_perm.
Qed.

Lemma StronglySorted_fmap {A B} (f : A → B) (R' : A → A → Prop)
    (R : B → B → Prop) (l : list A) :
  (∀ a b, R' a b → R (f a) (f b)) →
  StronglySorted R' l → StronglySorted R (f <$> l).
Proof.
  intros Himpl. induction 1 as [|x l Hl IH Hx]; [constructor|].
  rewrite fmap_cons. constructor; [assumption|].
  apply Forall_fmap. eapply Forall_impl; [exact Hx|].
  intros b Hb. now apply Himpl.
Qed.

Lemma sublist_filter_bool {A} (f : A → bool) (l : list A) :
  List.filter f l `sublist_of` l.
Proof.
  induction l as [|x l IH]; [constructor|]. cbn [List.filter].
  destruct (f x); now constructor.
Qed.

(** The keys of [Object.entries]: the array indices in ascending order, then
    the other keys as they were created. *)
Lemma Object_entries_keys (o : object) :
  ∃ indices,
    (Object_entries o).*1
    = indices ++ List.filter (λ k, negb (is_array_index k)) o.*1 ∧
    Permutation indices (List.filter is_array_index o.*1) ∧
    StronglySorted ascending_index indices.
Proof.
  exists (Array_sort (λ a b, index_value a.1 - index_value b.1)
            (List.filter (λ e, is_array_index e.1) o)).*1.
  split; [|split].
  - unfold Object_entries. now rewrite fmap_app, filter_fst.
  - rewrite filter_fst. apply fmap_Permutation, Array_sort_perm.
  - rewrite (Array_sort_ext _ (λ a b, (λ e, - index_value e.1) b - (λ e, - index_value e.1) a))
      by (intros a b; simpl; lia).
    eapply StronglySorted_fmap;
      [|apply (Array_sort_sorted (λ e : string * jsval, - index_value e.1))].
    unfold descending, ascending_index. intros a b Hab. lia.
Qed.

Lemma to_entry_names (l : list (string * jsval)) : name <$> (to_entry <$> l) = l.*1.
Proof. rewrite <- list_fmap_compose. reflexivity. Qed.

(** C5 (amended). When no product lists a label twice and no label is the
    name of a member of [Object.prototype], [loadCategories] yields one entry
    per distinct label, whose count is the number of products carrying the
    label; the counts add up to the number of membership pairs; the entries
    are sorted by count, largest first, and entries with equal counts follow
    the key order of the counting object: labels that are array indices
    first, in ascending numeric order, then the other labels in the order in
    which they were first seen. *)
Theorem loadCategories_spec (P : list product) :
  label_sets P → ordinary_labels P →
  ∃ entries,
    loadCategories P = Some entries ∧
    NoDup (name <$> entries) ∧
    (∀ l, l ∈ name <$> entries ↔ l ∈ all_labels P) ∧
    (∀ e, e ∈ entries → count e = products_with (name e) P) ∧
    total entries = memberships P ∧
    StronglySorted (descending count) entries ∧
    ∃ indices,
      Permutation indices (List.filter is_array_index (first_seen (all_labels P))) ∧
      StronglySorted ascending_index indices ∧
      ∀ c, names_with_count c entries
           `sublist_of`
           indices ++ List.filter (λ k, negb (is_array_index k))
                                  (first_seen (all_labels P)).
Proof.
  intros Hsets Hord.
  destruct (count_labels (all_labels P) []) as (Hnum & Hkeys & Hcount).
  { constructor. }
  { apply Forall_forall. intros l Hl. now apply Hord. }
  rewrite <- count_products in Hnum, Hkeys, Hcount.
  fold (categoryCounts P) in Hnum, Hkeys, Hcount.
  rewrite add_keys_first_seen in Hkeys. cbn [fmap list_fmap app] in Hkeys.
  rewrite (List.filter_ext _ (λ _, true)), filter_all in Hkeys by reflexivity.
  assert (Hocc : ∀ k, counted (categoryCounts P) k = occurrences k (all_labels P)).
  { intros k. rewrite Hcount. unfold counted. cbn [own_property]. lia. }
  assert (Hnd : NoDup (categoryCounts P).*1) by (rewrite Hkeys; apply first_seen_NoDup).
  pose proof (Object_entries_perm (categoryCounts P)) as Hperm.
  assert (HnumE : numeric (Object_entries (categoryCounts P))).
  { unfold numeric. now rewrite Hperm. }
  exists (Array_sort (λ a b, count b - count a)
            (to_entry <$> Object_entries (categoryCounts P))).
  assert (Hall : Permutation
            (Array_sort (λ a b, count b - count a)
               (to_entry <$> Object_entries (categoryCounts P)))
            (to_entry <$> categoryCounts P)).
  { rewrite Array_sort_perm. now apply fmap_Permutation. }
  assert (Hnames : Permutation
            (name <$> Array_sort (λ a b, count b - count a)
               (to_entry <$> Object_entries (categoryCounts P)))
            (first_seen (all_labels P))).
  { rewrite Hall, to_entry_names. now rewrite Hkeys. }
  split; [|split; [|split; [|split; [|split; [|split]]]]].
  - unfold loadCategories. now rewrite numeric_entries.
  - rewrite Hnames. apply first_seen_NoDup.
  - intros l. rewrite Hnames. apply first_seen_elem.
  - intros e He. rewrite Hall in He.
    apply list_elem_of_fmap in He as ([k v] & -> & Hkv).
    cbn [to_entry name count fst snd].
    rewrite <- occurrences_products, <- Hocc by assumption.
    rewrite (numeric_own _ _ _ Hnum (own_property_elem _ _ _ Hnd Hkv)). reflexivity.
  - rewrite (total_perm _ _ Hall), total_counted by assumption.
    rewrite memberships_length, Hkeys.
    rewrite (sum_over_ext _ (λ k, occurrences k (all_labels P)))
      by (intros k _; apply Hocc).
    apply sum_over_occurrences; [apply first_seen_NoDup|].
    intros x Hx. now apply first_seen_elem.
  - apply Array_sort_sorted.
  - destruct (Object_entries_keys (categoryCounts P)) as (indices & Hsplit & Hidx & Hasc).
    rewrite Hkeys in Hsplit, Hidx.
    exists indices. split; [assumption|]. split; [assumption|].
    intros c. unfold names_with_count. rewrite Array_sort_stable.
    rewrite <- Hsplit, <- to_entry_names.
    apply fmap_sublist, sublist_filter_bool.
Qed.

Lemma loadCategories_spec_witness :
  ∃ entries,
    loadCategories shelf = Some entries ∧
    NoDup (name <$> entries) ∧
    (∀ l, l ∈ name <$> entries ↔ l ∈ all_labels shelf) ∧
    (∀ e, e ∈ entries → count e = products_with (name e) shelf) ∧
    total entries = memberships shelf ∧
    StronglySorted (descending count) entries ∧
    ∃ indices,
      Permutation indices (List.filter is_array_index (first_seen (all_labels shelf))) ∧
      StronglySorted ascending_index indices ∧
      ∀ c, names_with_count c entries
           `sublist_of`
           indices ++ List.filter (λ k, negb (is_array_index k))
                                  (first_seen (all_labels shelf)).
Proof.
  apply (loadCategories_spec shelf).
  - intros p Hin. unfold shelf in Hin.
    apply elem_of_cons in Hin as [-> | Hin];
      [|apply list_elem_of_singleton in Hin as ->];
      apply (bool_decide_unpack _); vm_compute; exact I.
  - intros l Hl. cbn in Hl.
    repeat (apply elem_of_cons in Hl as [-> | Hl]; [reflexivity|]).
    inversion Hl.
Defined.

Example shelf_counts :
  loadCategories shelf
  = Some [{| name := "b"; count := 2 |}; {| name := "1"; count := 1 |}].
Proof. reflexivity. Qed.

(** A label listed twice by one product is counted twice. *)
Example repeated_label :
  loadCategories [plain_product "p1" (Some ["a"; "a"])]
  = Some [{| name := "a"; count := 2 |}].
Proof. reflexivity. Qed.

(** A label that names a member of [Object.prototype] is not counted by a
    number, and ["__proto__"] gets no entry at all. *)
Example inherited_label :
  loadCategories [plain_product "p1" (Some ["constructor"])] = None ∧
  loadCategories [plain_product "p1" (Some ["__proto__"; "a"])]
  = Some [{| name := "a"; count := 1 |}].
Proof. split; reflexivity. Qed.

(** * Further properties *)

(** ** [escapeHtml] *)

Lemma append_assoc (a b c : string) : (a +:+ b) +:+ c = a +:+ (b +:+ c).
Proof.
  induction a as [|x a IH]; [reflexivity|].
  change (String x ((a +:+ b) +:+ c) = String x (a +:+ (b +:+ c))).
  now rewrite IH.
Qed.

Lemma includes_char_cons (x c : ascii) (s : string) :
  JsString.includes (String x s) (String c "")
  = Ascii.eqb x c || JsString.includes s (String c "").
Proof.
  cbn [JsString.includes JsString.startsWith].
  now destruct s; rewrite andb_true_r.
Qed.

Lemma includes_char_app (a b : string) (c : ascii) :
  JsString.includes (a +:+ b) (String c "")
  = JsString.includes a (String c "") || JsString.includes b (String c "").
Proof.
  induction a as [|x a IH].
  - cbn. reflexivity.
  - change (String x a +:+ b) with (String x (a +:+ b)).
    rewrite !includes_char_cons, IH. apply orb_assoc.
Qed.

Lemma escape_char_no_markup (c : ascii) :
  JsString.includes (escape_char c) "<" = false ∧
  JsString.includes (escape_char c) ">" = false.
Proof. destruct c as [[] [] [] [] [] [] [] []]; split; reflexivity. Qed.

Lemma serialize_text_app (a b : string) :
  serialize_text (a +:+ b) = serialize_text a +:+ serialize_text b.
Proof.
  induction a as [|x a IH]; [reflexivity|].
  change (String x a +:+ b) with (String x (a +:+ b)).
  cbn [serialize_text]. now rewrite IH, append_assoc.
Qed.

Lemma escape_char_plain (c : ascii) : plain_char c → escape_char c = String c "".
Proof.
  intros (Hamp & Hlt & Hgt & Hnbsp). unfold escape_char.
  rewrite !(proj2 (Ascii.eqb_neq _ _)) by assumption. reflexivity.
Qed.

(** [escape_char] is a prefix code: what follows a written character is
    read back without ambiguity. *)
Lemma escape_char_inj (c1 c2 : ascii) (r1 r2 : string) :
  escape_char c1 +:+ r1 = escape_char c2 +:+ r2 → c1 = c2 ∧ r1 = r2.
Proof.
  unfold escape_char.
  destruct (Ascii.eqb_spec c1 "&"), (Ascii.eqb_spec c1 "<"),
           (Ascii.eqb_spec c1 ">"), (Ascii.eqb_spec c1 (ascii_of_nat 160)),
           (Ascii.eqb_spec c2 "&"), (Ascii.eqb_spec c2 "<"),
           (Ascii.eqb_spec c2 ">"), (Ascii.eqb_spec c2 (ascii_of_nat 160));
    subst; try discriminate; intros Heq; cbv in Heq;
    try (injection Heq as <-; auto; fail);
    try (injection Heq; intros; subst; auto; fail);
    try (exfalso; injection Heq; intros; subst; congruence).
Qed.

Lemma serialize_text_inj (s1 s2 : string) :
  serialize_text s1 = serialize_text s2 → s1 = s2.
Proof.
  revert s2. induction s1 as [|c1 s1 IH]; intros [|c2 s2] Heq; cbn [serialize_text] in Heq.
  - reflexivity.
  - exfalso. destruct c2 as [[] [] [] [] [] [] [] []]; discriminate Heq.
  - exfalso. destruct c1 as [[] [] [] [] [] [] [] []]; discriminate Heq.
  - apply escape_char_inj in Heq as [-> Hrest]. f_equal. now apply IH.
Qed.

Lemma escapeHtml_serialize (s : string) : escapeHtml (Some s) = serialize_text s.
Proof. now destruct s. Qed.

Lemma serialize_text_no_markup (s : string) :
  JsString.includes (serialize_text s) "<" = false ∧
  JsString.includes (serialize_text s) ">" = false.
Proof.
  induction s as [|c s [IHlt IHgt]]; [split; reflexivity|].
  cbn [serialize_text]. rewrite !includes_char_app, IHlt, IHgt.
  destruct (escape_char_no_markup c) as [-> ->]. auto.
Qed.

(** X1. The text returned by [escapeHtml] contains neither [<] nor [>],
    whatever the input. *)
Theorem escapeHtml_no_markup (text : option string) :
  JsString.includes (escapeHtml text) "<" = false ∧
  JsString.includes (escapeHtml text) ">" = false.
Proof.
  destruct text as [s|]; [|split; reflexivity].
  rewrite escapeHtml_serialize. apply serialize_text_no_markup.
Qed.

(** X2. [escapeHtml] copies every character other than [&], [<], [>] and the
    no-break space as it is; a double quote in the text is a double quote in
    the result. *)
Theorem escapeHtml_copies_plain (a b : string) (c : ascii) :
  plain_char c →
  escapeHtml (Some (a +:+ String c b))
  = escapeHtml (Some a) +:+ String c (escapeHtml (Some b)).
Proof.
  intros Hplain. rewrite !escapeHtml_serialize, serialize_text_app.
  cbn [serialize_text]. now rewrite escape_char_plain.
Qed.

Lemma escapeHtml_copies_plain_witness :
  escapeHtml (Some ("a<b" +:+ String double_quote " onclick=x"))
  = escapeHtml (Some "a<b") +:+ String double_quote (escapeHtml (Some " onclick=x")).
Proof.
  apply escapeHtml_copies_plain. unfold plain_char, double_quote.
  repeat split; discriminate.
Defined.

(** X3. [escapeHtml] loses nothing: two texts with the same escaped form are
    the same text. *)
Theorem escapeHtml_injective (s1 s2 : string) :
  escapeHtml (Some s1) = escapeHtml (Some s2) → s1 = s2.
Proof. rewrite !escapeHtml_serialize. apply serialize_text_inj. Qed.

Lemma escapeHtml_injective_witness : "a&b" = "a&b".
Proof. apply escapeHtml_injective. reflexivity. Defined.

(** ** Sections *)

Lemma filter_nil_iff {A} (f : A → bool) (l : list A) :
  List.filter f l = [] ↔ ∀ x, x ∈ l → f x = false.
Proof.
  induction l as [|y l IH]; cbn [List.filter].
  - split; [intros _ x Hx; inversion Hx | reflexivity].
  - destruct (f y) eqn:Hy.
    + split; [discriminate|]. intros Hall. rewrite Hall in Hy by left. discriminate.
    + rewrite IH. split.
      * intros Hall x Hx. apply elem_of_cons in Hx as [-> | Hx]; auto.
      * intros Hall x Hx. apply Hall. now right.
Qed.

Lemma elem_of_filter_bool {A} (f : A → bool) (l : list A) (x : A) :
  x ∈ List.filter f l ↔ x ∈ l ∧ f x = true.
Proof. rewrite !list_elem_of_In. apply filter_In. Qed.

Lemma cards_of_list (empty : section_view) (l cards : list product) :
  empty ≠ Cards cards →
  (if (length l =? 0)%nat then empty else Cards l) = Cards cards → l = cards ∧ l ≠ [].
Proof. destruct l; simpl; [congruence|]. intros _ [= <-]. auto. Qed.

(** X4. The promotion section shows, in the order of the collection and
    without a cap, exactly the products whose discount is positive and
    whose promotion window (a missing start being the epoch) contains the
    clock reading; it is hidden when there is none, and only then. *)
Theorem renderPromotionProducts_spec (now : Z) (P : list product) :
  (∃ keep : product → bool,
     (∀ p, keep p = true ↔
        (∃ d, discount_percent p = Some d ∧ 0 < d) ∧
        (∃ e, promotion_end p = Some e ∧
              dateValue (promotion_start p) <= now ∧ now <= e)) ∧
     renderPromotionProducts now P
     = match List.filter keep P with
       | [] => Hidden
       | cards => Cards cards
       end) ∧
  (renderPromotionProducts now P = Hidden
   ↔ ∀ p, p ∈ P → hasActivePromotion now p = false).
Proof.
  unfold renderPromotionProducts. cbv zeta. split.
  - exists (hasActivePromotion now). split.
    + intros p. apply hasActivePromotion_window.
    + apply section_of_cards.
  - rewrite <- filter_nil_iff.
    destruct (List.filter _ P); simpl; split; congruence.
Qed.

(** The part shown and the part cut off of a list sorted largest first. *)
Lemma sorted_cut {A} (key : A → Z) (n : nat) (l : list A) (x y : A) :
  StronglySorted (descending key) l →
  x ∈ take n l → y ∈ drop n l → key y <= key x.
Proof.
  intros Hsorted. revert n. induction Hsorted as [|z l Hl IH Hz]; intros n Hx Hy.
  - rewrite take_nil in Hx. inversion Hx.
  - destruct n as [|n]; [inversion Hx|]. cbn [take drop] in Hx, Hy.
    apply elem_of_cons in Hx as [-> | Hx]; [|eauto].
    rewrite Forall_forall in Hz. apply Hz.
    exact (subseteq_drop n l _ Hy).
Qed.

Lemma StronglySorted_take {A} (R : A → A → Prop) (n : nat) (l : list A) :
  StronglySorted R l → StronglySorted R (take n l).
Proof.
  intros Hsorted. revert n. induction Hsorted as [|z l Hl IH Hz]; intros [|n];
    cbn [take]; try constructor; auto.
  rewrite Forall_forall in *. intros x Hx. apply Hz.
  exact (subseteq_take n l _ Hx).
Qed.

(** What a section shows that filters by [f], sorts by [key], largest first,
    and keeps the first [n]. *)
Lemma top_cut {A} (key : A → Z) (f : A → bool) (n : nat) (P cards : list A) :
  cards = take n (Array_sort (λ a b, key b - key a) (List.filter f P)) →
  (length cards ≤ n)%nat ∧
  (∀ p, p ∈ cards → p ∈ P ∧ f p = true) ∧
  StronglySorted (descending key) cards ∧
  (∀ q, q ∈ P → f q = true → q ∉ cards → ∀ p, p ∈ cards → key q <= key p) ∧
  ((length cards < n)%nat → ∀ q, q ∈ P → f q = true → q ∈ cards).
Proof.
  intros ->. set (ranked := Array_sort _ _).
  assert (Hperm : Permutation ranked (List.filter f P)) by apply Array_sort_perm.
  assert (Hsorted : StronglySorted (descending key) ranked) by apply Array_sort_sorted.
  assert (Hranked : ∀ q, q ∈ P → f q = true → q ∈ ranked).
  { intros q Hq Hf. rewrite Hperm. now apply elem_of_filter_bool. }
  split; [rewrite length_take; lia|]. split; [|split; [|split]].
  - intros p Hp. apply elem_of_filter_bool. rewrite <- Hperm.
    exact (subseteq_take n ranked _ Hp).
  - now apply StronglySorted_take.
  - intros q Hq Hf Hout p Hp. apply (sorted_cut key n ranked p q); auto.
    specialize (Hranked q Hq Hf). rewrite <- (take_drop n ranked) in Hranked.
    apply elem_of_app in Hranked as [?|?]; [contradiction | assumption].
  - intros Hshort q Hq Hf. rewrite length_take in Hshort.
    rewrite take_ge by lia. auto.
Qed.

Lemma take_sort_nil {A} (cmp : A → A → Z) (f : A → bool) (n : nat) (P : list A) :
  (0 < n)%nat →
  (take n (Array_sort cmp (List.filter f P)) = [] ↔ ∀ x, x ∈ P → f x = false).
Proof.
  intros Hn. rewrite <- filter_nil_iff. split.
  - intros Htake. destruct (Array_sort cmp (List.filter f P)) as [|x l] eqn:Hsort.
    + apply Permutation_nil_r. rewrite <- Hsort. symmetry. apply Array_sort_perm.
    + destruct n; [lia | discriminate].
  - intros ->. now destruct n.
Qed.

(** X5. In the version with click tracking the popular section shows the
    first eight of the products with a positive click count, ranked by
    count, largest first: a product with a positive count that is left out
    has no more clicks than any product shown, and none is left out while
    fewer than eight are shown. Without any positive count, and only then,
    the section shows its message instead. *)
Theorem tracking_popular_top8 (P : list product) :
  ∃ (keep : product → bool) (ranked : list product),
    (∀ p, keep p = true ↔ 0 < ClickTracking.clicks p) ∧
    Permutation ranked (List.filter keep P) ∧
    StronglySorted (descending ClickTracking.clicks) ranked ∧
    TrackingPage.renderPopularProducts P
    = match take 8 ranked with
      | [] => NoData "No popular products yet"
      | cards => Cards cards
      end ∧
    (take 8 ranked = [] ↔ ∀ p, p ∈ P → ClickTracking.clicks p <= 0) ∧
    (∀ q, q ∈ P → 0 < ClickTracking.clicks q → q ∉ take 8 ranked →
       ∀ p, p ∈ take 8 ranked → ClickTracking.clicks q <= ClickTracking.clicks p) ∧
    ((length (take 8 ranked) < 8)%nat →
       ∀ q, q ∈ P → 0 < ClickTracking.clicks q → q ∈ take 8 ranked).
Proof.
  set (keep := λ p : product, 0 <? ClickTracking.clicks p).
  set (cmp := λ a b : product, ClickTracking.clicks b - ClickTracking.clicks a).
  exists keep, (Array_sort cmp (List.filter keep P)).
  assert (Hkeep : ∀ p, keep p = true ↔ 0 < ClickTracking.clicks p).
  { intros p. apply Z.ltb_lt. }
  destruct (top_cut ClickTracking.clicks keep 8 P
              (take 8 (Array_sort cmp (List.filter keep P))) eq_refl)
    as (_ & _ & _ & Hcut & Hshort).
  split; [exact Hkeep|]. split; [apply Array_sort_perm|].
  split; [apply (Array_sort_sorted ClickTracking.clicks)|].
  split; [unfold TrackingPage.renderPopularProducts; cbv zeta; apply section_of_cards|].
  split; [|split].
  - rewrite (take_sort_nil cmp keep 8 P) by lia. split.
    + intros Hall p Hp. specialize (Hall p Hp). apply Z.ltb_ge in Hall. exact Hall.
    + intros Hall p Hp. apply Z.ltb_ge. auto.
  - intros q Hq Hpos. apply Hcut; [assumption | now apply Hkeep].
  - intros Hlt q Hq Hpos. apply Hshort; [assumption.. | now apply Hkeep].
Qed.

(** X6. The Recent section of [index.js] shows at most eight products; a
    recent product that is left out is not newer than any product shown, and
    none is left out while fewer than eight are shown. *)
Theorem renderRecentProducts_cut (now : Z) (P cards : list product) :
  renderRecentProducts now P = Cards cards →
  (length cards ≤ 8)%nat ∧
  (∀ p, p ∈ cards → p ∈ P ∧ within_last_week now p) ∧
  (∀ q, q ∈ P → within_last_week now q → q ∉ cards →
     ∀ p, p ∈ cards → newest_first p q) ∧
  ((length cards < 8)%nat → ∀ q, q ∈ P → within_last_week now q → q ∈ cards).
Proof.
  unfold renderRecentProducts. cbv zeta. intros Hcards.
  apply cards_of_list in Hcards as [Hcards _]; [|discriminate].
  set (recent := λ p : product, match created_at p with
                                | Some t => now - 7 * day <=? t
                                | None => false
                                end) in Hcards.
  assert (Hrecent : ∀ p, recent p = true ↔ within_last_week now p).
  { intros p. unfold recent, within_last_week. destruct (created_at p) as [t|].
    - rewrite Z.leb_le. split; [intros H; now exists t | now intros (? & [= <-] & H)].
    - split; [discriminate | now intros (? & [=] & _)]. }
  destruct (top_cut (λ p, dateValue (created_at p)) recent 8 P cards)
    as (Hlen & Hin & _ & Hcut & Hshort); [now symmetry|].
  split; [assumption|]. split; [|split].
  - intros p Hp. destruct (Hin p Hp) as [HP Hr]. split; [assumption | now apply Hrecent].
  - intros q Hq Hw Hout p Hp. unfold newest_first.
    apply Hcut; auto. now apply Hrecent.
  - intros Hlt q Hq Hw. apply Hshort; auto. now apply Hrecent.
Qed.

Lemma renderRecentProducts_cut_witness :
  (length [two_days_old] ≤ 8)%nat ∧
  (∀ p, p ∈ [two_days_old] →
     p ∈ [two_days_old; ten_days_old] ∧ within_last_week (1000 * day) p) ∧
  (∀ q, q ∈ [two_days_old; ten_days_old] → within_last_week (1000 * day) q →
     q ∉ [two_days_old] → ∀ p, p ∈ [two_days_old] → newest_first p q) ∧
  ((length [two_days_old] < 8)%nat →
     ∀ q, q ∈ [two_days_old; ten_days_old] → within_last_week (1000 * day) q →
          q ∈ [two_days_old]).
Proof.
  apply (renderRecentProducts_cut (1000 * day) [two_days_old; ten_days_old]).
  reflexivity.
Defined.

(** ** Filtering by categories *)

Lemma visible_spec_union (C1 C2 : gset string) (s : string) (p : product) :
  visible_spec (C1 ∪ C2) s p ↔ visible_spec C1 s p ∧ visible_spec C2 s p.
Proof.
  unfold visible_spec. split.
  - intros [[Hempty | Hall] Hsearch].
    + apply empty_union_L in Hempty as [-> ->]. tauto.
    + repeat split; try assumption; right; intros c Hc; apply Hall;
        apply elem_of_union; auto.
  - intros [[Hc1 Hsearch] [Hc2 _]]. split; [|assumption]. right. intros c Hc.
    apply elem_of_union in Hc as [Hc | Hc].
    + destruct Hc1 as [-> | Hall]; [now apply not_elem_of_empty in Hc | auto].
    + destruct Hc2 as [-> | Hall]; [now apply not_elem_of_empty in Hc | auto].
Qed.

Lemma passes_union (C1 C2 : gset string) (s : string) (p : product) :
  passes (C1 ∪ C2) s p = passes C1 s p && passes C2 s p.
Proof.
  apply eq_true_iff_eq. rewrite andb_true_iff, !passes_spec.
  apply visible_spec_union.
Qed.

Lemma filterProducts_two_steps (P : list product) (C1 C2 : gset string) (s : string) :
  filterProducts P (C1 ∪ C2) s = filterProducts (filterProducts P C1 s) C2 s.
Proof.
  rewrite !filterProducts_passes, filter_filter.
  apply List.filter_ext. intros p. apply passes_union.
Qed.

(** X7. Filtering by the categories of two selections taken together is
    filtering by the one and then, on the result, by the other; so one more
    selected category only removes products, in place, and filtering a
    filtered list again changes nothing. *)
Theorem filterProducts_union (P : list product) (C1 C2 : gset string) (s : string) :
  filterProducts P (C1 ∪ C2) s = filterProducts (filterProducts P C1 s) C2 s ∧
  filterProducts P (C1 ∪ C2) s `sublist_of` filterProducts P C1 s ∧
  filterProducts (filterProducts P C1 s) C1 s = filterProducts P C1 s.
Proof.
  split; [apply filterProducts_two_steps|]. split.
  - rewrite filterProducts_two_steps, (filterProducts_passes (filterProducts P C1 s)).
    apply sublist_filter_bool.
  - rewrite <- filterProducts_two_steps. f_equal. apply union_idemp_L.
Qed.

(** X8. Checking a category that was not selected and unchecking it again
    brings back the page and the grid of before; the grid after the check
    shows a part, in the same order, of what the filter showed before. *)
Theorem handleCategoryChange_round_trip (category : string) (s : page) :
  category ∉ selectedCategories s →
  let checked := handleCategoryChange category true s in
  let unchecked := handleCategoryChange category false checked.1 in
  unchecked.1 = s ∧
  unchecked.2
  = renderProducts (filterProducts (allProducts s) (selectedCategories s) (searchInput s)) ∧
  ∀ cards, productsGrid checked.2 = Cards cards →
    cards `sublist_of`
      filterProducts (allProducts s) (selectedCategories s) (searchInput s).
Proof.
  intros Hnew. cbv zeta. unfold handleCategoryChange. cbn [fst snd allProducts
    selectedCategories searchInput modal_active modalBody body_overflow_hidden].
  assert (Hsel : ({[category]} ∪ selectedCategories s) ∖ {[category]}
                 = selectedCategories s).
  { apply set_eq. intros c.
    rewrite elem_of_difference, elem_of_union, elem_of_singleton.
    split; [tauto|]. intros Hc. split; [tauto|]. now intros ->. }
  rewrite Hsel. split; [now destruct s|]. split; [reflexivity|].
  intros cards Hcards. unfold renderProducts in Hcards. cbn [productsGrid] in Hcards.
  apply cards_of_list in Hcards as [<- _]; [|discriminate].
  rewrite (union_comm_L {[category]}), filterProducts_two_steps.
  rewrite (filterProducts_passes (filterProducts _ _ _)).
  apply sublist_filter_bool.
Qed.

Lemma handleCategoryChange_round_trip_witness :
  (handleCategoryChange "a" false
     (handleCategoryChange "a" true (shop_page catalogue)).1).1
  = shop_page catalogue.
Proof.
  apply (handleCategoryChange_round_trip "a" (shop_page catalogue)).
  cbn. apply not_elem_of_empty.
Defined.

(** ** Category search *)

Lemma sublist_sorted {A} (R : A → A → Prop) (l k : list A) :
  l `sublist_of` k → StronglySorted R k → StronglySorted R l.
Proof.
  intros Hsub Hsorted. revert l Hsub.
  induction Hsorted as [|x k Hk IH Hx]; intros l Hsub.
  - apply sublist_nil_r in Hsub as ->. constructor.
  - apply sublist_cons_r in Hsub as [Hsub | (l' & -> & Hsub)]; [auto|].
    constructor; [auto|]. rewrite Forall_forall in *. intros y Hy. apply Hx.
    eapply sublist_subseteq; eassumption.
Qed.

(** X9. The category search shows the checkboxes of a part of the category
    index, in the order and with the counts of the index (so largest count
    first when the index is): the entries whose name contains the trimmed
    text regardless of case, all of them when the text trims to nothing.
    Each box is checked exactly when its category is selected. When the
    text matches no entry a message is shown. *)
Theorem categorySearch_spec (index : list category_entry)
    (selected : gset string) (input : string) :
  (∀ boxes, categorySearch index selected input = CategoryBoxes boxes →
     ∃ shown,
       boxes = renderCategories selected shown ∧
       shown `sublist_of` index ∧
       (StronglySorted (descending count) index →
        StronglySorted (descending count) shown) ∧
       (∀ e, e ∈ shown ↔
          e ∈ index ∧
          (JsString.trim input = "" ∨
           substring_ignoring_case (JsString.trim input) (name e))) ∧
       checkbox_checked <$> boxes
       = (λ e, bool_decide (name e ∈ selected)) <$> shown) ∧
  (∀ message, categorySearch index selected input = CategoryMessage message →
     message = "No matching categories" ∧
     JsString.trim input ≠ "" ∧
     ∀ e, e ∈ index → ¬ substring_ignoring_case (JsString.trim input) (name e)).
Proof.
  unfold categorySearch. cbv zeta. rewrite <- toLowerCase_trim.
  assert (Hmatch : ∀ e, JsString.includes (JsString.toLowerCase (name e))
                          (JsString.toLowerCase (JsString.trim input)) = true
                        ↔ substring_ignoring_case (JsString.trim input) (name e)).
  { intros e. apply includes_spec. }
  assert (Hboxes : ∀ shown, checkbox_checked <$> renderCategories selected shown
                            = (λ e, bool_decide (name e ∈ selected)) <$> shown).
  { intros shown. unfold renderCategories. now rewrite <- list_fmap_compose. }
  destruct (JsString.truthy _) eqn:Hterm; cbn [negb].
  - assert (Hne : JsString.trim input ≠ "").
    { intros Hempty. rewrite Hempty in Hterm. discriminate. }
    destruct (List.filter _ index) as [|e0 shown] eqn:Hfilter; cbn [length Nat.eqb].
    + split; [discriminate|]. intros message [= <-]. split; [reflexivity|].
      split; [assumption|]. intros e He Hsub. apply Hmatch in Hsub.
      rewrite (proj1 (filter_nil_iff _ _) Hfilter e He) in Hsub. discriminate.
    + split; [|discriminate]. intros boxes Hb.
      assert (boxes = renderCategories selected (e0 :: shown)) as -> by congruence.
      exists (e0 :: shown). split; [reflexivity|].
      assert (Hsub : e0 :: shown `sublist_of` index)
        by (rewrite <- Hfilter; apply sublist_filter_bool).
      split; [assumption|]. split; [|split; [|apply Hboxes]].
      * now apply sublist_sorted.
      * intros e. rewrite <- Hfilter, elem_of_filter_bool, Hmatch. tauto.
  - apply truthy_false in Hterm. apply (proj1 (toLowerCase_empty _)) in Hterm.
    split; [|discriminate]. intros boxes Hb.
    assert (boxes = renderCategories selected index) as -> by congruence.
    exists index. split; [reflexivity|]. split; [reflexivity|]. split; [auto|].
    split; [|apply Hboxes]. intros e. tauto.
Qed.

(** ** Product cards *)

Lemma getDiscountedPrice_truthy (now : Z) (p : product) (pr : Q) :
  price_truthy p = Some pr →
  price p = Some pr ∧ ¬ (pr == 0)%Q ∧
  getDiscountedPrice now p
  = if hasActivePromotion now p
    then Some (pr * (1 - toNumber (discount_percent p) / 100))%Q else None.
Proof.
  unfold price_truthy, getDiscountedPrice. destruct (price p) as [q|]; [|discriminate].
  destruct (Qeq_bool q 0) eqn:Hz; [discriminate|]. intros [= ->].
  split; [reflexivity|]. split.
  - intros Heq. apply Qeq_bool_iff in Heq. congruence.
  - now destruct (hasActivePromotion now p).
Qed.

Lemma price_truthy_None (p : product) :
  price_truthy p = None ↔ price p = None ∨ ∃ pr, price p = Some pr ∧ (pr == 0)%Q.
Proof.
  unfold price_truthy. destruct (price p) as [q|].
  - destruct (Qeq_bool q 0) eqn:Hz.
    + apply Qeq_bool_iff in Hz. split; [right; now exists q | reflexivity].
    + split; [discriminate|]. intros [[=] | (pr & [= <-] & Heq)].
      apply Qeq_bool_iff in Heq. congruence.
  - split; auto.
Qed.

(** X10. The price markup of a card, which [formatPriceHtml] computes as
    the inline code of [index.js] does for the card and for the modal: the
    struck price with the sale price exactly for a product on promotion with
    a price other than 0, the sale price being the discounted price; the
    plain price exactly for such a price off promotion; nothing exactly when
    the price is missing or 0. *)
Theorem priceHtml_spec (now : Z) (p : product) :
  card_priceHtml now p = VideoPage.formatPriceHtml now p false ∧
  modal_priceHtml now p = VideoPage.formatPriceHtml now p true ∧
  (∀ pr sale, card_priceHtml now p = SalePrice pr sale ↔
     hasActivePromotion now p = true ∧ price p = Some pr ∧ ¬ (pr == 0)%Q ∧
     sale = (pr * (1 - toNumber (discount_percent p) / 100))%Q) ∧
  (∀ pr, card_priceHtml now p = Price false pr ↔
     hasActivePromotion now p = false ∧ price p = Some pr ∧ ¬ (pr == 0)%Q) ∧
  (card_priceHtml now p = NoPrice ↔
     price p = None ∨ ∃ pr, price p = Some pr ∧ (pr == 0)%Q).
Proof.
  unfold card_priceHtml, modal_priceHtml, VideoPage.formatPriceHtml. cbv zeta.
  rewrite <- price_truthy_None.
  destruct (price_truthy p) as [q|] eqn:Hq.
  - destruct (getDiscountedPrice_truthy now p q Hq) as (Hprice & Hnz & Hsale).
    rewrite Hsale, Hprice.
    destruct (hasActivePromotion now p).
    + split; [reflexivity|]. split; [reflexivity|]. split; [|split].
      * intros pr sale. split.
        -- intros [= <- <-]. auto.
        -- intros (_ & [= <-] & _ & ->). reflexivity.
      * intros pr. split; [discriminate | now intros (? & _)].
      * split; discriminate.
    + split; [reflexivity|]. split; [reflexivity|]. split; [|split].
      * intros pr sale. split; [discriminate | now intros (? & _)].
      * intros pr. split; [intros [= <-]; auto | now intros (_ & [= <-] & _)].
      * split; discriminate.
  - split; [reflexivity|]. split; [reflexivity|]. split; [|split].
    + intros pr sale. split; [discriminate|]. intros (_ & Hpr & Hnz & _).
      apply price_truthy_None in Hq as [Hq | (q & Hq & Hz)]; congruence.
    + intros pr. split; [discriminate|]. intros (_ & Hpr & Hnz).
      apply price_truthy_None in Hq as [Hq | (q & Hq & Hz)]; congruence.
    + tauto.
Qed.

(** X11. A card carries the sale badge and the class [on-sale] exactly when
    the product is on promotion, whether or not a price is shown: a product
    on promotion whose price is missing or 0 gets the badge and no price. *)
Theorem sale_badge_without_price (now : Z) (p : product) (compact : bool) :
  hasActivePromotion now p = true →
  price p = None ∨ (∃ pr, price p = Some pr ∧ (pr == 0)%Q) →
  let c := renderProductCard now p compact in
  card_on_sale c = true ∧
  (∃ d, card_saleBadge c = Some d ∧ 0 < d) ∧
  card_priceHtml_of c = NoPrice.
Proof.
  intros Hact Hprice. cbv zeta. unfold renderProductCard.
  cbn [card_on_sale card_saleBadge card_priceHtml_of]. rewrite Hact.
  split; [reflexivity|]. split.
  - apply hasActivePromotion_window in Hact as [(d & Hd & Hpos) _]. eauto.
  - unfold card_priceHtml. cbv zeta.
    now rewrite (proj2 (price_truthy_None p) Hprice).
Qed.

Lemma sale_badge_without_price_witness :
  card_on_sale (renderProductCard (1000 * day) free_sample true) = true ∧
  (∃ d, card_saleBadge (renderProductCard (1000 * day) free_sample true) = Some d ∧ 0 < d) ∧
  card_priceHtml_of (renderProductCard (1000 * day) free_sample true) = NoPrice.
Proof.
  apply (sale_badge_without_price (1000 * day) free_sample true).
  - reflexivity.
  - right. exists 0%Q. split; reflexivity.
Defined.

(** X12. Card and modal of [index.js] agree: the main media of the modal
    just opened is the media of the card, with the same choice between image
    and video, and the count badge of the card is the number of thumbnails
    of the modal (no badge, no thumbnails). *)
Theorem card_matches_modal (now : Z) (s : page) (productId : string)
    (p : product) (compact : bool) :
  find_product productId (allProducts s) = Some p →
  ∃ body,
    modalBody (openProductModal productId s) = Some body ∧
    main_src body = card_media (renderProductCard now p compact) ∧
    main_isVideo body = card_isVideo (renderProductCard now p compact) ∧
    match card_mediaCount (renderProductCard now p compact) with
    | Some n => length (gallery body) = n ∧ (1 < n)%nat
    | None => gallery body = []
    end.
Proof.
  intros Hfind. unfold openProductModal. rewrite Hfind. eexists.
  split; [reflexivity|]. unfold renderProductCard, galleryHtml.
  cbn [main_src main_isVideo gallery card_media card_isVideo card_mediaCount].
  split; [reflexivity|]. split; [reflexivity|].
  destruct (Nat.ltb_spec 1 (length (getProductMedia p))).
  - rewrite length_imap. auto.
  - reflexivity.
Qed.

Lemma card_matches_modal_witness :
  ∃ body,
    modalBody (openProductModal "p5" (shop_page [two_media])) = Some body ∧
    main_src body = card_media (renderProductCard 0 two_media false) ∧
    main_isVideo body = card_isVideo (renderProductCard 0 two_media false) ∧
    match card_mediaCount (renderProductCard 0 two_media false) with
    | Some n => length (gallery body) = n ∧ (1 < n)%nat
    | None => gallery body = []
    end.
Proof. apply card_matches_modal. reflexivity. Defined.

(** ** Runs of clicks in the modal *)

Lemma gallery_alter (i j : nat) (images : list string) :
  alter activate j (deactivate <$> gallery_at i images) = gallery_at j images.
Proof.
  unfold gallery_at. destruct (1 <? length images)%nat; [|reflexivity].
  apply list_eq. intros k. rewrite list_lookup_imap.
  destruct (decide (k = j)) as [->|Hne].
  - rewrite list_lookup_alter_eq, list_lookup_fmap, list_lookup_imap.
    destruct (images !! j); [|reflexivity]. cbn. now rewrite Nat.eqb_refl.
  - rewrite list_lookup_alter_ne, list_lookup_fmap, list_lookup_imap by congruence.
    destruct (images !! k); [|reflexivity]. cbn.
    now rewrite (proj2 (Nat.eqb_neq k j)).
Qed.

Lemma gallery_at_lookup (i j : nat) (images : list string) :
  gallery_at i images !! j
  = if (1 <? length images)%nat then
      (λ img, {| thumb_src := img; thumb_isVideo := isVideo img;
                 thumb_active := (j =? i)%nat |}) <$> images !! j
    else None.
Proof.
  unfold gallery_at. destruct (1 <? length images)%nat; [|reflexivity].
  apply list_lookup_imap.
Qed.

Lemma mainImage_drop (j : nat) (media : list string) (u : string) :
  media !! j = Some u → mainImage (drop j media) = u.
Proof.
  revert j. induction media as [|x media IH]; intros [|j] Hj; try discriminate.
  - now injection Hj as ->.
  - now apply IH.
Qed.

Lemma openProductModal_shown (productId : string) (s : page) (p : product) :
  find_product productId (allProducts s) = Some p →
  openProductModal productId s = shown_page s p 0.
Proof. intros Hfind. unfold openProductModal. now rewrite Hfind. Qed.

Lemma clickThumb_shown (base : page) (p : product) (i j : nat) :
  (i = 0 ∨ 1 < length (getProductMedia p))%nat →
  clickThumb j (shown_page base p i)
  = Some (shown_page base p
            (if (j <? length (getProductMedia p))%nat then j else i)).
Proof.
  intros Hi. unfold clickThumb, shown_page. cbn [modalBody gallery].
  rewrite gallery_at_lookup.
  destruct (Nat.ltb_spec 1 (length (getProductMedia p))) as [Hmany|Hfew].
  - destruct (getProductMedia p !! j) as [u|] eqn:Hj; cbn [fmap option_fmap option_map].
    + rewrite (proj2 (Nat.ltb_lt _ _) (lookup_lt_Some _ _ _ Hj)).
      unfold changeModalMedia.
      cbn [modalBody gallery thumb_src thumb_isVideo allProducts
           selectedCategories searchInput modal_active body_overflow_hidden
           modal_product].
      now rewrite gallery_alter, (mainImage_drop _ _ _ Hj).
    + apply lookup_ge_None in Hj.
      now rewrite (proj2 (Nat.ltb_ge _ _) Hj).
  - destruct Hi as [-> | Hi]; [|lia].
    destruct (Nat.ltb_spec j (length (getProductMedia p))); [|reflexivity].
    now replace j with 0%nat by lia.
Qed.

Lemma last_inside_bound (n i : nat) (positions : list nat) :
  (i = 0 ∨ i < n)%nat →
  (last_inside n i positions = 0 ∨ last_inside n i positions < n)%nat.
Proof.
  revert i. induction positions as [|j positions IH]; intros i Hi; [assumption|].
  cbn [last_inside]. apply IH.
  destruct (Nat.ltb_spec j n); [now right | assumption].
Qed.

Lemma clickThumbs_shown (base : page) (p : product) (positions : list nat) (i : nat) :
  (i = 0 ∨ 1 < length (getProductMedia p))%nat →
  clickThumbs positions (shown_page base p i)
  = Some (shown_page base p (last_inside (length (getProductMedia p)) i positions)).
Proof.
  revert i. induction positions as [|j positions IH]; intros i Hi; [reflexivity|].
  cbn [clickThumbs last_inside]. rewrite clickThumb_shown by assumption.
  apply IH. destruct (Nat.ltb_spec j (length (getProductMedia p))); [|assumption].
  destruct Hi as [-> | Hi]; [|now right].
  destruct (Nat.ltb_spec 1 (length (getProductMedia p))); [now right|].
  left. lia.
Qed.

Lemma selection_of_shown (base : page) (p : product) (i : nat) :
  (i = 0 ∨ i < length (getProductMedia p))%nat →
  selection_of (shown_page base p i) = Open (id p) i.
Proof.
  intros Hi. unfold selection_of, shown_page, mediaIndex_of.
  cbn [modal_active modalBody modal_product gallery].
  destruct (Nat.ltb_spec 1 (length (getProductMedia p))) as [Hmany|Hfew].
  - assert (Hlt : (i < length (getProductMedia p))%nat) by lia.
    rewrite <- (gallery_alter 0 i).
    destruct (active_index_after_click (gallery_at 0 (getProductMedia p)) i)
      as [Hex Hidx].
    { unfold gallery_at. rewrite (proj2 (Nat.ltb_lt _ _) Hmany), length_imap. exact Hlt. }
    now rewrite Hex, Hidx.
  - unfold gallery_at. rewrite (proj2 (Nat.ltb_ge _ _) Hfew). cbn.
    f_equal. lia.
Qed.

Lemma markup_safe_app (a b : string) :
  markup_safe (a +:+ b) = markup_safe a && markup_safe b.
Proof.
  unfold markup_safe. induction a as [|c a IH]; [reflexivity|].
  change (String c a +:+ b) with (String c (a +:+ b)).
  cbn [list_ascii_of_string forallb]. now rewrite IH, andb_assoc.
Qed.

Lemma escape_char_markup_safe (c : ascii) :
  markup_safe (escape_char c) = negb (breaks_markup c).
Proof. destruct c as [[] [] [] [] [] [] [] []]; reflexivity. Qed.

(** The text that [escapeHtml] returns for a URL, which the markup places
    between quotation marks and between apostrophes, holds one of the
    characters that end or alter them exactly when the URL does. *)
Lemma escapeHtml_markup_safe (url : string) :
  markup_safe (escapeHtml (Some url)) = markup_safe url.
Proof.
  rewrite escapeHtml_serialize. induction url as [|c url IH]; [reflexivity|].
  cbn [serialize_text]. rewrite markup_safe_app, escape_char_markup_safe, IH.
  reflexivity.
Qed.

Lemma galleryHtml_length_le (media : list string) :
  (length (galleryHtml media) ≤ length media)%nat.
Proof.
  unfold galleryHtml. destruct (1 <? length media)%nat.
  - now rewrite length_imap.
  - simpl. lia.
Qed.

Lemma last_inside_last (n i : nat) (positions : list nat) :
  Forall (λ j, (j < n)%nat) positions →
  last_inside n i positions = default i (last positions).
Proof.
  intros Hall. revert i. induction Hall as [|j positions Hj Hall IH]; intros i.
  - reflexivity.
  - cbn [last_inside]. rewrite (proj2 (Nat.ltb_lt j n) Hj), IH.
    destruct positions as [|k positions]; [reflexivity|].
    rewrite last_cons_cons.
    destruct (last (k :: positions)) eqn:Hlast; [reflexivity|].
    now apply last_None in Hlast.
Qed.

(** X13. After a product is opened whose media URLs hold no quotation mark,
    apostrophe, backslash, line break or character 0, any run of clicks on
    thumbnails of its gallery leaves the modal open on that product with
    the item clicked last selected (the first item when nothing was
    clicked): that item is the main media (the placeholder for a product
    without media), its thumbnail the only active one; the collection and
    the filter state are untouched. *)
Theorem clickThumbs_selects (s : page) (productId : string) (p : product)
    (positions : list nat) :
  find_product productId (allProducts s) = Some p →
  let media := getProductMedia p in
  forallb markup_safe media = true →
  forallb (λ j, (j <? length (galleryHtml media))%nat) positions = true →
  let i := default 0%nat (last positions) in
  ∃ s' body,
    clickThumbs positions (openProductModal productId s) = Some s' ∧
    modalBody s' = Some body ∧
    selection_of s' = Open productId i ∧
    main_src body = mainImage (drop i media) ∧
    main_isVideo body = isVideo (main_src body) ∧
    gallery body = gallery_at i media ∧
    allProducts s' = allProducts s ∧
    selectedCategories s' = selectedCategories s ∧
    searchInput s' = searchInput s.
Proof.
  intros Hfind media _ Hthumbs i.
  assert (Hinside : Forall (λ j, (j < length media)%nat) positions).
  { apply Forall_forall. intros j Hj.
    apply list_elem_of_In in Hj.
    apply (proj1 (forallb_forall _ _) Hthumbs), Nat.ltb_lt in Hj.
    pose proof (galleryHtml_length_le media). lia. }
  assert (Hi : last_inside (length media) 0 positions = i)
    by now apply last_inside_last.
  rewrite (openProductModal_shown _ _ _ Hfind).
  rewrite clickThumbs_shown by now left. fold media. rewrite Hi.
  assert (Hbound : (i = 0 ∨ i < length media)%nat).
  { rewrite <- Hi. apply last_inside_bound. now left. }
  eexists _, _. split; [reflexivity|]. split; [reflexivity|].
  cbn [main_src main_isVideo gallery allProducts selectedCategories searchInput].
  split; [|repeat split].
  rewrite selection_of_shown by exact Hbound.
  now rewrite (find_product_id _ _ _ Hfind).
Qed.

Lemma clickThumbs_selects_witness :
  ∃ s' body,
    clickThumbs [1; 0; 1]%nat (openProductModal "p5" (shop_page [two_media]))
    = Some s' ∧
    modalBody s' = Some body ∧
    selection_of s' = Open "p5" 1 ∧
    main_src body = "b.mp4" ∧
    main_isVideo body = isVideo (main_src body) ∧
    gallery body = gallery_at 1 ["a.jpg"; "b.mp4"] ∧
    allProducts s' = [two_media] ∧
    selectedCategories s' = ∅ ∧
    searchInput s' = "".
Proof.
  apply (clickThumbs_selects (shop_page [two_media]) "p5" two_media [1; 0; 1]%nat).
  - reflexivity.
  - reflexivity.
  - reflexivity.
Defined.

(** ** Events of the page *)

Lemma handle_allProducts (e : event) (s : page) :
  allProducts (handle e s) = allProducts s.
Proof.
  destruct e as [productId|click|j|key|text|category checked]; cbn [handle].
  - unfold openProductModal. now destruct (find_product _ _).
  - now destruct click as [[]|].
  - unfold clickThumb, changeModalMedia.
    destruct (modalBody s) as [body|] eqn:Hbody; [|reflexivity].
    now destruct (gallery body !! j).
  - unfold keydown. now destruct (_ && _).
  - reflexivity.
  - reflexivity.
Qed.

Lemma run_allProducts (events : list event) (s : page) :
  allProducts (run events s) = allProducts s.
Proof.
  unfold run. revert s. induction events as [|e events IH]; intros s; [reflexivity|].
  cbn [foldl]. now rewrite IH, handle_allProducts.
Qed.

Lemma mainImage_elem (media : list string) : mainImage media ∈ placeholder :: media.
Proof. destruct media; [left | right; left]. Qed.

Lemma galleryHtml_sources (media : list string) :
  Forall (λ t, thumb_src t ∈ media) (galleryHtml media).
Proof.
  unfold galleryHtml. destruct (1 <? length media)%nat; [|constructor].
  apply Forall_lookup. intros i t Hi. rewrite list_lookup_imap in Hi.
  destruct (media !! i) as [u|] eqn:Hu; [|discriminate].
  injection Hi as <-. cbn. eapply list_elem_of_lookup_2, Hu.
Qed.

Lemma closeModal_consistent (P : list product) (click : option bool) (s : page) :
  modal_consistent P s → modal_consistent P (closeModal click s).
Proof.
  intros Hs. destruct click as [[]|]; try assumption;
    destruct Hs as (HP & _ & _); (split; [exact HP|]);
    (split; [reflexivity | discriminate]).
Qed.

Lemma handle_consistent (P : list product) (e : event) (s : page) :
  modal_consistent P s → modal_consistent P (handle e s).
Proof.
  intros Hs. pose proof Hs as (HP & Hlock & Hopen).
  destruct e as [productId|click|j|key|text|category checked]; cbn [handle].
  - unfold openProductModal.
    destruct (find_product productId (allProducts s)) as [p|] eqn:Hfind; [|assumption].
    split; [exact HP|]. split; [reflexivity|]. intros _.
    eexists _, p. split; [reflexivity|]. cbn [modal_product gallery main_src].
    split; [|split; [reflexivity|split]].
    + rewrite <- HP. apply list_elem_of_In. now apply find_some in Hfind as [? _].
    + apply galleryHtml_sources.
    + apply mainImage_elem.
  - now apply closeModal_consistent.
  - unfold clickThumb, changeModalMedia.
    destruct (modalBody s) as [body|] eqn:Hbody; [|assumption].
    destruct (gallery body !! j) as [t|] eqn:Ht; [|assumption].
    split; [exact HP|]. split; [exact Hlock|].
    cbn [modal_active modalBody]. intros Hactive.
    destruct (Hopen Hactive) as (body' & p & Hbody' & Hp & Hid & Hsrc & _).
    injection Hbody' as <-.
    eexists _, p. split; [reflexivity|]. cbn [modal_product gallery main_src].
    split; [assumption|]. split; [assumption|]. split.
    + apply Forall_lookup. intros k t' Hk.
      destruct (decide (k = j)) as [->|Hne].
      * rewrite list_lookup_alter_eq, list_lookup_fmap in Hk.
        destruct (gallery body !! j) as [t0|] eqn:Ht0; [|discriminate].
        injection Hk as <-. cbn. exact (proj1 (Forall_lookup _ _) Hsrc j t0 Ht0).
      * rewrite list_lookup_alter_ne, list_lookup_fmap in Hk by congruence.
        destruct (gallery body !! k) as [t0|] eqn:Ht0; [|discriminate].
        injection Hk as <-. cbn. exact (proj1 (Forall_lookup _ _) Hsrc k t0 Ht0).
    + right. exact (proj1 (Forall_lookup _ _) Hsrc j t Ht).
  - unfold keydown. destruct (_ && _); [|assumption].
    now apply closeModal_consistent.
  - split; [exact HP|]. split; [exact Hlock|]. exact Hopen.
  - split; [exact HP|]. split; [exact Hlock|]. exact Hopen.
Qed.

Lemma markup_safe_media (P : list product) (p : product) (url : string) :
  forallb safe_media P = true → p ∈ P → url ∈ placeholder :: getProductMedia p →
  markup_safe url = true.
Proof.
  intros Hsafe Hp Hurl. apply elem_of_cons in Hurl as [-> | Hurl]; [reflexivity|].
  apply list_elem_of_In in Hp, Hurl.
  apply (proj1 (forallb_forall _ _) Hsafe) in Hp.
  exact (proj1 (forallb_forall _ _) Hp url Hurl).
Qed.

(** X14. Over a collection whose media URLs hold no quotation mark,
    apostrophe, backslash, line break or character 0, whatever the user
    does, starting from the loaded page (opening products, present or not,
    closing, clicking thumbnails, pressing keys, typing in the search box,
    toggling categories): the collection stays; the scroll lock is on
    exactly while the modal is open; the product shown is one of the
    collection; every thumbnail and the main media come from its media (the
    main media may be the placeholder), so that the open modal never holds
    a URL with one of those characters. *)
Theorem run_consistent (P : list product) (events : list event) :
  forallb safe_media P = true →
  let s := run events (shop_page P) in
  modal_consistent P s ∧
  (modal_active s = true →
   ∃ body,
     modalBody s = Some body ∧
     markup_safe (main_src body) = true ∧
     Forall (λ t, markup_safe (thumb_src t) = true) (gallery body)).
Proof.
  intros Hsafe s.
  assert (Hs : modal_consistent P s).
  { subst s.
    assert (Hgen : ∀ s, modal_consistent P s → modal_consistent P (run events s)).
    { unfold run. induction events as [|e events IH]; intros s Hs; [assumption|].
      cbn [foldl]. apply IH. now apply handle_consistent. }
    apply Hgen. split; [reflexivity|]. split; [reflexivity | discriminate]. }
  split; [exact Hs|]. intros Hactive.
  destruct Hs as (_ & _ & Hopen).
  destruct (Hopen Hactive) as (body & p & Hbody & Hp & _ & Hthumbs & Hmain).
  exists body. split; [exact Hbody|]. split.
  - exact (markup_safe_media P p _ Hsafe Hp Hmain).
  - eapply Forall_impl; [exact Hthumbs|]. intros t Ht. cbn beta in Ht.
    apply (markup_safe_media P p _ Hsafe Hp). now right.
Qed.

Lemma run_consistent_witness :
  modal_consistent [two_media]
    (run [OpenProduct "p5"; ClickThumb 1; Keydown "Escape"; OpenProduct "p5"]
         (shop_page [two_media])).
Proof.
  exact (proj1 (run_consistent [two_media]
    [OpenProduct "p5"; ClickThumb 1; Keydown "Escape"; OpenProduct "p5"] eq_refl)).
Defined.

(** X15. Opening a product of the collection after any run of events shows
    the same modal content as opening it on the fresh page, with the first
    media item selected; closing it, by the close button or the Escape key,
    gives the closed state, from which the product opens as before. *)
Theorem openProductModal_fresh (P : list product) (events : list event)
    (productId : string) (p : product) :
  find_product productId P = Some p →
  let s := run events (shop_page P) in
  modalBody (openProductModal productId s)
  = modalBody (openProductModal productId (shop_page P)) ∧
  selection_of (openProductModal productId s) = Open productId 0 ∧
  selection_of (closeModal None (openProductModal productId s)) = Closed ∧
  selection_of (keydown "Escape" (openProductModal productId s)) = Closed ∧
  openProductModal productId (closeModal None (openProductModal productId s))
  = openProductModal productId s.
Proof.
  intros Hfind. cbv zeta.
  assert (Hfind' : find_product productId (allProducts (run events (shop_page P))) = Some p)
    by now rewrite run_allProducts.
  rewrite (openProductModal_shown _ _ _ Hfind').
  rewrite (openProductModal_shown productId (shop_page P) p) by exact Hfind.
  split; [reflexivity|]. split.
  - rewrite selection_of_shown by now left. now rewrite (find_product_id _ _ _ Hfind).
  - split; [reflexivity|]. split; [reflexivity|].
    unfold openProductModal, closeModal, shown_page. cbn [allProducts].
    now rewrite Hfind'.
Qed.

Lemma openProductModal_fresh_witness :
  selection_of
    (openProductModal "p5"
       (run [OpenProduct "p5"; ClickThumb 1; CloseModal None; TypeSearch "lamp"]
            (shop_page [two_media])))
  = Open "p5" 0.
Proof.
  exact (proj1 (proj2 (openProductModal_fresh [two_media]
    [OpenProduct "p5"; ClickThumb 1; CloseModal None; TypeSearch "lamp"]
    "p5" two_media eq_refl))).
Defined.



(** ** Click tracking, request after request *)

Lemma update_found_other (productId q : string) (products : list product) :
  q ≠ productId →
  find_product q (ClickTracking.update_found productId products)
  = find_product q products.
Proof.
  intros Hne. unfold find_product.
  induction products as [|p rest IH]; [reflexivity|].
  cbn [ClickTracking.update_found].
  destruct (String.eqb_spec (id p) productId) as [Heq|Hdiff]; cbn [List.find].
  - cbn [ClickTracking.add_click id].
    destruct (String.eqb_spec (id p) q); [congruence | reflexivity].
  - now rewrite IH.
Qed.

Lemma update_found_same (productId : string) (products : list product) (p : product) :
  find_product productId products = Some p →
  find_product productId (ClickTracking.update_found productId products)
  = Some (ClickTracking.add_click p).
Proof.
  intros Hfind.
  destruct (update_found_split _ _ _ Hfind) as (before & after & _ & Hbefore & ->).
  apply find_product_app; [assumption|]. apply (find_product_id _ _ _ Hfind).
Qed.

(** X17. In the version with click tracking, when the requests of one
    product settle one after the other, its cached count goes up by the
    number of requests that got a response, whatever their status (nothing
    is deduplicated); each rejected request adds one console line and
    nothing else; what is cached for the other ids stays as it was. *)
Theorem settle_all_counts (s : ClickTracking.page) (productId : string)
    (p : product) (results : list ClickTracking.fetch_result) :
  find_product productId (ClickTracking.allProducts s) = Some p →
  let s' := settle_all productId results s in
  (∃ p', find_product productId (ClickTracking.allProducts s') = Some p' ∧
         ClickTracking.clicks p' = ClickTracking.clicks p + responses results) ∧
  length (ClickTracking.console s')
  = (length (ClickTracking.console s) + rejections results)%nat ∧
  ∀ q, q ≠ productId →
       find_product q (ClickTracking.allProducts s')
       = find_product q (ClickTracking.allProducts s).
Proof.
  cbv zeta. unfold settle_all. revert s p.
  induction results as [|r results IH]; intros s p Hfind; cbn [foldl].
  - split; [exists p; split; [assumption | unfold responses; simpl; lia]|].
    split; [unfold rejections; simpl; lia | reflexivity].
  - destruct r as [status|err].
    + destruct (IH (ClickTracking.trackProductClick_settled productId
                      (ClickTracking.Response status) s) (ClickTracking.add_click p))
        as ((p' & Hp' & Hclicks) & Hlog & Hother).
      { now apply update_found_same. }
      split; [|split].
      * exists p'. split; [assumption|]. rewrite Hclicks.
        unfold responses. cbn [List.filter length ClickTracking.clicks
          ClickTracking.add_click click_count]. lia.
      * rewrite Hlog. reflexivity.
      * intros q Hq. rewrite Hother by assumption. now apply update_found_other.
    + destruct (IH (ClickTracking.trackProductClick_settled productId
                      (ClickTracking.Rejected err) s) p)
        as ((p' & Hp' & Hclicks) & Hlog & Hother); [assumption|].
      split; [|split].
      * exists p'. split; [assumption|]. rewrite Hclicks. reflexivity.
      * rewrite Hlog. cbn [ClickTracking.trackProductClick_settled ClickTracking.console].
        rewrite length_app. unfold rejections. cbn [List.filter length]. lia.
      * intros q Hq. now rewrite Hother.
Qed.

Lemma settle_all_counts_witness :
  ∃ p', find_product "p5"
          (ClickTracking.allProducts
             (settle_all "p5"
                [ClickTracking.Response 204; ClickTracking.Rejected "offline";
                 ClickTracking.Response 401]
                (tracking_page [two_media]))) = Some p' ∧
        ClickTracking.clicks p'
        = ClickTracking.clicks two_media
          + responses [ClickTracking.Response 204; ClickTracking.Rejected "offline";
                       ClickTracking.Response 401].
Proof.
  exact (proj1 (settle_all_counts (tracking_page [two_media]) "p5" two_media
                  [ClickTracking.Response 204; ClickTracking.Rejected "offline";
                   ClickTracking.Response 401] eq_refl)).
Defined.

(** X18. In the version with click tracking, opening an id that no product
    carries sends no request and changes nothing. *)
Theorem tracking_open_absent (productId : string) (s : ClickTracking.page) :
  (∀ p, p ∈ ClickTracking.allProducts s → id p ≠ productId) →
  ClickTracking.openProductModal productId s = s ∧
  ClickTracking.requests (ClickTracking.openProductModal productId s)
  = ClickTracking.requests s.
Proof.
  intros Habsent. apply find_product_absent in Habsent.
  unfold ClickTracking.openProductModal. now rewrite Habsent.
Qed.

Lemma tracking_open_absent_witness :
  ClickTracking.openProductModal "missing-id" (tracking_page [two_media])
  = tracking_page [two_media].
Proof.
  apply (tracking_open_absent "missing-id" (tracking_page [two_media])).
  intros p Hin. apply list_elem_of_singleton in Hin as ->. discriminate.
Defined.

(** ** The list of categories of the data store *)

Lemma sort_insert_sorted_by {A} (R : relation A) (cmp : A → A → Z)
    `{!Transitive R} (x : A) (l : list A) :
  (∀ a b, cmp a b <= 0 → R a b) → (∀ a b, 0 < cmp a b → R b a) →
  StronglySorted R l → StronglySorted R (sort_insert cmp x l).
Proof.
  intros Hle Hgt. induction 1 as [|y l Hsorted IH Hall]; cbn [sort_insert].
  - repeat constructor.
  - destruct (Z.leb_spec (cmp x y) 0) as [Hxy|Hxy].
    + constructor; [now constructor|].
      constructor; [auto|]. eapply Forall_impl; [exact Hall|].
      intros z Hz. simpl in Hz. etrans; [apply Hle, Hxy | exact Hz].
    + constructor; [assumption|].
      rewrite sort_insert_perm. constructor; [auto | assumption].
Qed.

Lemma Array_sort_sorted_by {A} (R : relation A) (cmp : A → A → Z)
    `{!Transitive R} (l : list A) :
  (∀ a b, cmp a b <= 0 → R a b) → (∀ a b, 0 < cmp a b → R b a) →
  StronglySorted R (Array_sort cmp l).
Proof.
  intros Hle Hgt. induction l as [|x l IH]; [constructor|].
  unfold Array_sort in *. cbn [foldr]. now apply sort_insert_sorted_by.
Qed.

Lemma compare_strings_le (a b : string) : compare_strings a b <= 0 → String.le a b.
Proof.
  unfold compare_strings, String.le, String.leb.
  destruct (String.compare a b); simpl; intros Hle; [exact I | exact I | lia].
Qed.

Lemma compare_strings_gt (a b : string) : 0 < compare_strings a b → String.le b a.
Proof.
  unfold compare_strings, String.le, String.leb.
  rewrite (String.compare_antisym b a).
  destruct (String.compare a b); simpl; intros Hpos; [lia | lia | exact I].
Qed.

Lemma sorted_strings (l : list string) :
  StronglySorted String.le (Array_sort compare_strings l).
Proof.
  apply Array_sort_sorted_by; [apply _ | apply compare_strings_le | apply compare_strings_gt].
Qed.

(** X19. For a response that is ok, [getUniqueCategories] returns every
    category label of the rows exactly once, in ascending order of code
    units. *)
Theorem getUniqueCategories_spec (products : list product) :
  ∃ labels,
    getUniqueCategories (FetchOk products) = inl labels ∧
    NoDup labels ∧
    StronglySorted String.le labels ∧
    ∀ l, l ∈ labels ↔ ∃ p, p ∈ products ∧ l ∈ category_set p.
Proof.
  eexists. split; [reflexivity|]. split; [|split].
  - rewrite Array_sort_perm. apply first_seen_NoDup.
  - apply sorted_strings.
  - intros l. rewrite Array_sort_perm, first_seen_elem.
    rewrite list_elem_of_In, in_concat. split.
    + intros (cats & Hcats & Hl).
      apply list_elem_of_In in Hl. apply list_elem_of_In in Hcats.
      apply list_elem_of_fmap in Hcats as (p & Hcats & Hp).
      exists p. split; [assumption | now rewrite <- Hcats].
    + intros (p & Hp & Hl). exists (category_set p).
      split; apply list_elem_of_In; [|assumption].
      apply list_elem_of_fmap. now exists p.
Qed.

(** X20. The list returned by [getUniqueCategories] depends only on which
    labels occur in the rows: not on the order of the rows, nor on how
    often or where a label occurs. *)
Theorem getUniqueCategories_labels_only (products products' : list product) :
  (∀ l, l ∈ all_labels products ↔ l ∈ all_labels products') →
  getUniqueCategories (FetchOk products) = getUniqueCategories (FetchOk products').
Proof.
  intros Hsame. cbn [getUniqueCategories]. f_equal.
  apply (StronglySorted_unique String.le); [apply sorted_strings..|].
  rewrite !Array_sort_perm.
  apply NoDup_Permutation; [apply first_seen_NoDup..|].
  intros l. rewrite !first_seen_elem. apply Hsame.
Qed.

Lemma getUniqueCategories_labels_only_witness :
  getUniqueCategories (FetchOk shelf) = getUniqueCategories (FetchOk (rev shelf)).
Proof.
  apply getUniqueCategories_labels_only. intros l. cbn.
  rewrite !elem_of_cons. tauto.
Defined.

(** X21. The category list of the version with click tracking: one
    checkbox per label, sorted and without repetition, for a response with
    labels; the message that there are no categories for a response without
    any; for a failed request the failure message, with the text of the
    server or, when it sent none, the default text. *)
Theorem tracking_loadCategories_spec (response : fetch_outcome (list product)) :
  match response with
  | FetchOk products =>
      match TrackingPage.loadCategories response with
      | TrackingPage.Checkboxes values =>
          ∃ labels, values = (λ l, escapeHtml (Some l)) <$> labels ∧
                    labels ≠ [] ∧ NoDup labels ∧ StronglySorted String.le labels ∧
                    ∀ l, l ∈ labels ↔ l ∈ all_labels products
      | TrackingPage.Message text =>
          text = "No categories available" ∧ all_labels products = []
      end
  | FetchNotOk message =>
      TrackingPage.loadCategories response
      = TrackingPage.Message
          ("Failed to load categories: "
           +:+ match message with
               | Some m => if JsString.truthy m then m else "Failed to fetch categories"
               | None => "Failed to fetch categories"
               end)
  | FetchRejected message =>
      TrackingPage.loadCategories response
      = TrackingPage.Message ("Failed to load categories: " +:+ message)
  end.
Proof.
  destruct response as [products|message|message]; [|reflexivity..].
  unfold TrackingPage.loadCategories. cbn [getUniqueCategories].
  destruct (Array_sort compare_strings _) as [|c labels] eqn:Hsort; cbn [length Nat.eqb].
  - split; [reflexivity|].
    assert (Hnil : first_seen (all_labels products) = []).
    { apply Permutation_nil_r. rewrite <- Hsort. symmetry. apply Array_sort_perm. }
    destruct (all_labels products) as [|l ls] eqn:Hlabels; [reflexivity|].
    discriminate Hnil.
  - exists (c :: labels). split; [reflexivity|]. split; [discriminate|].
    rewrite <- Hsort. split; [|split].
    + rewrite Array_sort_perm. apply first_seen_NoDup.
    + apply sorted_strings.
    + intros l. now rewrite Array_sort_perm, first_seen_elem.
Qed.

Lemma loadCategories_names (P : list product) :
  ordinary_labels P →
  ∃ entries, loadCategories P = Some entries ∧
             Permutation (name <$> entries) (first_seen (all_labels P)).
Proof.
  intros Hord.
  destruct (count_labels (all_labels P) []) as (Hnum & Hkeys & _).
  { constructor. }
  { apply Forall_forall. intros l Hl. now apply Hord. }
  rewrite <- count_products in Hnum, Hkeys. fold (categoryCounts P) in Hnum, Hkeys.
  rewrite add_keys_first_seen in Hkeys. cbn [fmap list_fmap app] in Hkeys.
  rewrite (List.filter_ext _ (λ _, true)), filter_all in Hkeys by reflexivity.
  pose proof (Object_entries_perm (categoryCounts P)) as Hperm.
  assert (HnumE : numeric (Object_entries (categoryCounts P))).
  { unfold numeric. now rewrite Hperm. }
  eexists. split.
  - unfold loadCategories. now rewrite numeric_entries.
  - rewrite Array_sort_perm, to_entry_names, Hperm. now rewrite Hkeys.
Qed.

(** X22. The two ways of listing categories offer the same labels: when
    no label is the name of a member of [Object.prototype], the names of the
    entries of [loadCategories] are, in another order, the labels returned
    by [getUniqueCategories] for the same rows. *)
Theorem loadCategories_same_labels (P : list product) :
  ordinary_labels P →
  ∃ entries labels,
    loadCategories P = Some entries ∧
    getUniqueCategories (FetchOk P) = inl labels ∧
    Permutation (name <$> entries) labels.
Proof.
  intros Hord. destruct (loadCategories_names P Hord) as (entries & Hload & Hnames).
  eexists entries, _. split; [assumption|]. split; [reflexivity|].
  now rewrite Array_sort_perm.
Qed.

Lemma loadCategories_same_labels_witness :
  ∃ entries labels,
    loadCategories shelf = Some entries ∧
    getUniqueCategories (FetchOk shelf) = inl labels ∧
    Permutation (name <$> entries) labels.
Proof.
  apply loadCategories_same_labels.
  intros l Hl. cbn in Hl.
  repeat (apply elem_of_cons in Hl as [-> | Hl]; [reflexivity|]).
  inversion Hl.
Defined.

(** ** Video detection *)

Lemma toLowerCase_app (a b : string) :
  JsString.toLowerCase (a +:+ b) = JsString.toLowerCase a +:+ JsString.toLowerCase b.
Proof.
  induction a as [|x a IH]; [reflexivity|].
  change (String x a +:+ b) with (String x (a +:+ b)).
  cbn [JsString.toLowerCase]. now rewrite IH.
Qed.

Lemma includes_toLowerCase (s t : string) :
  JsString.includes s t = true →
  JsString.includes (JsString.toLowerCase s) (JsString.toLowerCase t) = true.
Proof.
  rewrite !includes_spec. intros (a & b & ->).
  exists (JsString.toLowerCase a), (JsString.toLowerCase b).
  now rewrite !toLowerCase_app.
Qed.

(** X23. [isVideoUrl] accepts a URL exactly when it contains one of the
    extensions [.mp4], [.webm], [.mov] in any letter case. It accepts every
    URL that the check of the product card accepts for an extension, but not
    one that the card accepts only for its [/video/] path segment: such a
    media item is a video on the card and an image in the modal. *)
Theorem isVideoUrl_spec (src : string) :
  (VideoPage.isVideoUrl (Some src) = true ↔
     substring_ignoring_case ".mp4" src ∨ substring_ignoring_case ".webm" src ∨
     substring_ignoring_case ".mov" src) ∧
  (isVideo src = true →
     VideoPage.isVideoUrl (Some src) = true ∨
     (JsString.includes src "/video/" = true ∧
      ¬ substring_ignoring_case ".mp4" src ∧ ¬ substring_ignoring_case ".webm" src ∧
      ¬ substring_ignoring_case ".mov" src)).
Proof.
  assert (Hspec : VideoPage.isVideoUrl (Some src) = true ↔
     substring_ignoring_case ".mp4" src ∨ substring_ignoring_case ".webm" src ∨
     substring_ignoring_case ".mov" src).
  { unfold VideoPage.isVideoUrl, substring_ignoring_case. cbv zeta.
    rewrite <- !includes_spec. cbn [JsString.toLowerCase].
    destruct src as [|c src]; [split; [discriminate | intros [H | [H | H]]; discriminate H]|].
    cbn [JsString.truthy]. rewrite !orb_true_iff. tauto. }
  split; [exact Hspec|].
  intros Hcard. destruct (VideoPage.isVideoUrl (Some src)) eqn:Hmodal; [now left|].
  right. assert (Hnone : ¬ (substring_ignoring_case ".mp4" src ∨
                            substring_ignoring_case ".webm" src ∨
                            substring_ignoring_case ".mov" src)).
  { intros H. apply Hspec in H. discriminate. }
  split; [|tauto].
  unfold isVideo in Hcard. rewrite !orb_true_iff in Hcard.
  destruct Hcard as [[Hpath | Hext] | Hext]; [assumption|..];
    exfalso; apply Hnone; apply includes_toLowerCase in Hext;
    apply includes_spec in Hext; auto.
Qed.

Example video_on_card_image_in_modal :
  card_isVideo (renderProductCard 0 (with_media two_media (Some [path_only_video]) None) false)
  = true ∧
  (main_isVideo <$> modalBody
     (VideoPage.openProductModal "p5"
        (shop_page [with_media two_media (Some [path_only_video]) None])))
  = Some false.
Proof. split; reflexivity. Qed.

(** ** Loading the collection *)

(** A load that fails, by a response that is not ok or by a rejected
    request, leaves the page as it was: the collection, the selection and
    the modal are those of before, and the promotion section is untouched;
    the grid shows the failure message with the text of the server or, when
    it sent none, the default text. A load that succeeds replaces the
    collection and shows all of it in the grid, whatever categories are
    selected and whatever the search box holds. *)
Lemma loadProducts_outcomes (now : Z) (response : fetch_outcome (list product))
    (s : page) (shown : screen) :
  match response with
  | FetchOk rows =>
      allProducts (loadProducts now response s shown).1 = rows ∧
      selectedCategories (loadProducts now response s shown).1 = selectedCategories s ∧
      searchInput (loadProducts now response s shown).1 = searchInput s ∧
      productsGrid (grid (loadProducts now response s shown).2)
      = match rows with [] => NoData "No products found" | _ => Cards rows end ∧
      promotionSection (loadProducts now response s shown).2
      = renderPromotionProducts now rows
  | FetchNotOk message =>
      (loadProducts now response s shown).1 = s ∧
      promotionSection (loadProducts now response s shown).2 = promotionSection shown ∧
      productsGrid (grid (loadProducts now response s shown).2)
      = NoData ("Failed to load products: "
                +:+ match message with
                    | Some m => if JsString.truthy m then m else "Failed to fetch records"
                    | None => "Failed to fetch records"
                    end)
  | FetchRejected message =>
      (loadProducts now response s shown).1 = s ∧
      promotionSection (loadProducts now response s shown).2 = promotionSection shown ∧
      productsGrid (grid (loadProducts now response s shown).2)
      = NoData ("Failed to load products: " +:+ message)
  end.
Proof.
  destruct response as [rows|message|message]; cbn.
  - repeat split. now destruct rows.
  - repeat split.
  - repeat split.
Qed.
